(** * json-render: patch reducer, path addressing, stream loop, validation
      and action contexts

    A shallow embedding of the TypeScript sources

    - the types and path helpers of the core package ([getByPath],
      [setByPath], [resolveDynamicValue]),
    - [packages/react/src/utils.ts] ([parsePatchLine], [applyPatch],
      [processPatch]),
    - [packages/react/src/hooks.ts] ([applyPatch], [useUIStream]),
    - the SolidJS validation context ([validate], [validateAll]),
    - the SolidJS action context ([execute], [confirm], [cancel]).

    Modelling conventions.

    - A JavaScript value produced by [JSON.parse] is a [JValue].  Objects
      are finite maps of their own properties ([gmap string JValue]) and
      have the prototype an object literal has.  Arrays are objects too: a
      length and a map of own properties, so that holes and named
      properties written by [setByPath] are representable.
    - The members an object inherits from [Object.prototype]
      ([object_prototype_names]) enter the model where the sources meet
      them.  An assignment under the name [__proto__] runs the inherited
      setter unless the object has an own property of that name: it
      stores no property, and it leaves the modelled fragment when it
      replaces the prototype.  A walk of [setByPath] that steps into the
      prototype leaves the modelled fragment.  The lookup of an element
      in [applyPatch] finds the inherited members.  A read answers with
      the own property: [getByPath] is modelled for the paths that read
      no inherited member, and [flatToTree] for the lists that name none
      as a key or as a parent; the theorems that depend on this say so in
      their hypotheses.  [Object.prototype] itself is taken as the
      language defines it (no member added to it).
    - Numbers are integers ([Z]); the functions below only test numbers
      for truthiness and for their [typeof].
    - Strings are sequences of 8-bit code units.
    - A call either completes normally, throws, or leaves the modelled
      fragment ([Unmodelled]: assigning a string or an array to the
      [length] of an array, which needs the number a text denotes;
      replacing or entering a prototype).
    - [setByPath] mutates its argument; the model returns the mutated
      object.  Aliasing between successive tree snapshots is not tracked. *)

From Stdlib Require Import Ascii String.
From stdpp Require Import gmap strings list fin_maps pretty.

#[local] Set Warnings "-register-all".

(** ** JavaScript values *)

Module Js.

Inductive JValue : Type :=
| JUndefined
| JNull
| JBool (b : bool)
| JNum (n : Z)
| JStr (s : string)
| JObj (m : gmap string JValue)
| JArr (len : N) (m : gmap string JValue).

Inductive ErrMessage : Type :=
| Msg (s : string)
| MsgOf (v : JValue).   (* String(v) of a value that is not a string *)

Record JsError : Type := mkError { err_name : string; err_message : ErrMessage }.

Definition TypeError (s : string) : JsError := mkError "TypeError" (Msg s).
Definition RangeError (s : string) : JsError := mkError "RangeError" (Msg s).

(** [new Error(v)] *)
Definition new_Error (v : JValue) : JsError :=
  mkError "Error" (match v with JStr s => Msg s | _ => MsgOf v end).

Inductive Completion (A : Type) : Type :=
| Normal (a : A)
| Throw (e : JsError)
| Unmodelled.
Arguments Normal {A} a.
Arguments Throw {A} e.
Arguments Unmodelled {A}.

Definition cbind {A B} (c : Completion A) (k : A → Completion B) : Completion B :=
  match c with
  | Normal a => k a
  | Throw e => Throw e
  | Unmodelled => Unmodelled
  end.

#[global] Instance Completion_ret : MRet Completion := fun A a => Normal a.
#[global] Instance Completion_bind : MBind Completion := fun A B k c => cbind c k.

(** Truthiness ([if (v)], [!v]). *)
Definition truthy (v : JValue) : bool :=
  match v with
  | JUndefined | JNull => false
  | JBool b => b
  | JNum n => negb (n =? 0)%Z
  | JStr s => negb (String.eqb s "")
  | JObj _ | JArr _ _ => true
  end.

Definition typeof (v : JValue) : string :=
  match v with
  | JUndefined => "undefined"
  | JNull | JObj _ | JArr _ _ => "object"
  | JBool _ => "boolean"
  | JNum _ => "number"
  | JStr _ => "string"
  end.

(** *** Strings *)

(** [s.startsWith(p)] *)
Fixpoint startsWith (s p : string) {struct p} : bool :=
  match p, s with
  | EmptyString, _ => true
  | String a p', String b s' => Ascii.eqb a b && startsWith s' p'
  | String _ _, EmptyString => false
  end.

(** [s.slice(n)] for [0 <= n]. *)
Fixpoint slice (n : nat) (s : string) : string :=
  match n, s with
  | O, _ => s
  | S n', String _ r => slice n' r
  | S _, EmptyString => EmptyString
  end.

(** [s.split(sep)] for a one-character separator; never empty. *)
Fixpoint split (sep : ascii) (s : string) : list string :=
  match s with
  | EmptyString => [EmptyString]
  | String c r =>
      if Ascii.eqb c sep then EmptyString :: split sep r
      else match split sep r with
           | h :: t => String c h :: t
           | [] => [String c EmptyString]
           end
  end.

Definition newline : ascii := "010"%char.

(** [parts.join(sep)] *)
Fixpoint join (sep : string) (parts : list string) : string :=
  match parts with
  | [] => ""
  | [p] => p
  | p :: rest => p +:+ sep +:+ join sep rest
  end.

(** White space and line terminators removed by [String.prototype.trim],
    among the 8-bit code units. *)
Definition is_js_whitespace (c : ascii) : bool :=
  let n := N_of_ascii c in
  ((9 <=? n) && (n <=? 13) || (n =? 32) || (n =? 160))%N.

Fixpoint trimStart (s : string) : string :=
  match s with
  | EmptyString => EmptyString
  | String c r => if is_js_whitespace c then trimStart r else s
  end.

Definition trimEnd (s : string) : string :=
  String.rev (trimStart (String.rev s)).

Definition trim (s : string) : string := trimEnd (trimStart s).

(** *** Array indices *)

Fixpoint digits_to_N (s : string) (acc : N) : option N :=
  match s with
  | EmptyString => Some acc
  | String c r =>
      let d := N_of_ascii c in
      if ((48 <=? d) && (d <=? 57))%N
      then digits_to_N r (acc * 10 + (d - 48))%N
      else None
  end.

Definition key_of_index (i : N) : string := pretty i.

(** A property key is an array index when it is the canonical decimal
    form of an integer below 2^32 - 1. *)
Definition index_of_key (k : string) : option N :=
  match k with
  | EmptyString => None
  | _ =>
      match digits_to_N k 0 with
      | Some n =>
          if bool_decide (key_of_index n = k) && (n <? 4294967295)%N
          then Some n else None
      | None => None
      end
  end.

Definition indexed {A} (f : A → JValue) (l : list A) : gmap string JValue :=
  list_to_map (imap (fun i x => (key_of_index (N.of_nat i), f x)) l).

(** The array literal [[v0, v1, ...]]. *)
Definition js_array (l : list JValue) : JValue :=
  JArr (N.of_nat (length l)) (indexed id l).

(** The object literal with the given entries (later entries win). *)
Definition js_object (l : list (string * JValue)) : JValue :=
  JObj (list_to_map (reverse l)).

Definition chars (s : string) : list ascii := list_ascii_of_string s.

(** *** Property access *)

(** The names of the members of [Object.prototype], which every object
    literal, every copy [{ ...v }] and every object made by [JSON.parse]
    inherits.  [__proto__] is an accessor, the other members are
    functions in writable data properties. *)
Definition object_prototype_names : list string :=
  ["constructor"; "__defineGetter__"; "__defineSetter__"; "hasOwnProperty";
   "__lookupGetter__"; "__lookupSetter__"; "isPrototypeOf";
   "propertyIsEnumerable"; "toString"; "valueOf"; "__proto__";
   "toLocaleString"].

Definition inherited (k : string) : bool :=
  bool_decide (k ∈ object_prototype_names).

(** Whether [o[k]] reaches the accessor [__proto__] of the prototype: the
    name is [__proto__] and [o], with own properties [m], has no own
    property of this name. *)
Definition reaches_proto (m : gmap string JValue) (k : string) : bool :=
  String.eqb k "__proto__" && bool_decide (m !! k = None).

(** The setter of [__proto__] called on [o] with [v]: an object or [null]
    becomes the prototype of [o], any other value is ignored. *)
Definition proto_setter (o v : JValue) : Completion JValue :=
  match v with
  | JObj _ | JArr _ _ | JNull => Unmodelled
  | _ => Normal o
  end.

(** [k in v], for a [k] that names no inherited member of [v]. *)
Definition js_in (k : string) (v : JValue) : Completion bool :=
  match v with
  | JObj m => Normal (bool_decide (is_Some (m !! k)))
  | JArr _ m => Normal (bool_decide (is_Some (m !! k)) || String.eqb k "length")
  | _ => Throw (TypeError "Cannot use 'in' operator to search for a key in a non-object")
  end.

(** [v[k]], for a [k] that names no inherited member of [v]. *)
Definition js_get (v : JValue) (k : string) : Completion JValue :=
  match v with
  | JObj m => Normal (default JUndefined (m !! k))
  | JArr len m =>
      if String.eqb k "length" then Normal (JNum (Z.of_N len))
      else Normal (default JUndefined (m !! k))
  | JStr s =>
      if String.eqb k "length" then Normal (JNum (Z.of_nat (String.length s)))
      else match index_of_key k with
           | Some i => Normal (default JUndefined
                                 (indexed (fun c => JStr (String c EmptyString)) (chars s) !! k))
           | None => Normal JUndefined
           end
  | JBool _ | JNum _ => Normal JUndefined
  | JUndefined | JNull => Throw (TypeError "Cannot read properties of null or undefined")
  end.

(** Own properties that survive [arr.length = n]. *)
Definition keeps_below (n : N) (k : string) : bool :=
  match index_of_key k with
  | Some i => (i <? n)%N
  | None => true
  end.

(** [v[k]] for a [v] known not to be [null] or [undefined]. *)
Definition prop (v : JValue) (k : string) : JValue :=
  match js_get v k with
  | Normal x => x
  | _ => JUndefined
  end.

(** The receiver [v] of a string method call [v.startsWith(...)]. *)
Definition string_receiver (v : JValue) : Completion string :=
  match v with
  | JStr s => Normal s
  | JUndefined | JNull =>
      Throw (TypeError "Cannot read properties of undefined (reading 'startsWith')")
  | _ => Throw (TypeError "startsWith is not a function")
  end.

Definition is_string (v : JValue) (s : string) : bool :=
  match v with
  | JStr s' => String.eqb s' s
  | _ => false
  end.

(** [arr.length = v] *)
Definition set_length (m : gmap string JValue) (v : JValue) : Completion JValue :=
  let resize (n : Z) : Completion JValue :=
    if ((0 <=? n) && (n <? 4294967296))%Z
    then Normal (JArr (Z.to_N n)
                   (filter (fun kv : string * JValue =>
                              keeps_below (Z.to_N n) kv.1 = true) m))
    else Throw (RangeError "Invalid array length") in
  match v with
  | JNum n => resize n
  | JNull => resize 0%Z
  | JBool b => resize (if b then 1 else 0)%Z
  | JUndefined => Throw (RangeError "Invalid array length")
  | JObj o =>
      (* an own, not callable [toString] leaves no way to a primitive;
         otherwise the object converts to NaN *)
      if bool_decide (is_Some (o !! "toString"))
      then Throw (TypeError "Cannot convert object to primitive value")
      else Throw (RangeError "Invalid array length")
  | JStr _ | JArr _ _ => Unmodelled
  end.

(** [o[k] = v] in strict mode; the result is the mutated [o].  Every
    inherited member but [__proto__] is a writable data property, under
    whose name the assignment creates an own property. *)
Definition js_set (o : JValue) (k : string) (v : JValue) : Completion JValue :=
  match o with
  | JObj m =>
      if reaches_proto m k then proto_setter o v
      else Normal (JObj (<[k := v]> m))
  | JArr len m =>
      if reaches_proto m k then proto_setter o v
      else if String.eqb k "length" then set_length m v
      else match index_of_key k with
           | Some i => Normal (JArr (N.max len (i + 1)) (<[k := v]> m))
           | None => Normal (JArr len (<[k := v]> m))
           end
  | _ => Throw (TypeError "Cannot set properties of a non-object")
  end.

(** The own enumerable properties copied by [{ ...v }]. *)
Definition spread (v : JValue) : gmap string JValue :=
  match v with
  | JObj m | JArr _ m => m
  | JStr s => indexed (fun c => JStr (String c EmptyString)) (chars s)
  | _ => ∅
  end.

(** After a nested object reached through [o[k]] was mutated in place,
    [o[k]] denotes the mutated object. *)
Definition aliased (o : JValue) (k : string) (child : JValue) : JValue :=
  match o with
  | JObj m => JObj (<[k := child]> m)
  | JArr len m => JArr len (<[k := child]> m)
  | _ => o
  end.

End Js.
Export Js.

(** ** Path addressing and dynamic values (core) *)

Module Core.

(** The loop of [getByPath].  [current[segment]] is read as the own
    property: for a segment that names an inherited member the source
    finds a built-in function or a prototype object, which is no
    [JValue]. *)
Fixpoint getByPath_loop (segments : list string) (current : JValue) : JValue :=
  match segments with
  | [] => current
  | segment :: rest =>
      match current with
      | JNull | JUndefined => JUndefined
      | _ =>
          if String.eqb (typeof current) "object"
          then getByPath_loop rest (prop current segment)
          else JUndefined
      end
  end.

Definition path_segments (path : string) : list string :=
  if startsWith path "/" then split "/" (slice 1 path) else split "/" path.

(** [getByPath(obj, path)] for a string [path], as declared. *)
Definition getByPath_string (obj : JValue) (path : string) : JValue :=
  if negb (truthy (JStr path)) || String.eqb path "/" then obj
  else getByPath_loop (path_segments path) obj.

(** [resolveDynamicValue] hands over [value.path] unchecked, so the call
    is also modelled for a [path] that is not a string. *)
Definition getByPath (obj : JValue) (path : JValue) : Completion JValue :=
  match path with
  | JStr p => Normal (getByPath_string obj p)
  | _ =>
      if negb (truthy path) then Normal obj
      else _ ← string_receiver path; Normal JUndefined
  end.

(** Whether the walk steps from [current] into its prototype:
    [__proto__ in current] holds and [typeof current.__proto__] is
    "object", so the guard keeps it and [current] becomes the prototype. *)
Definition enters_proto (current : JValue) (segment : string) : bool :=
  match current with
  | JObj m | JArr _ m => reaches_proto m segment
  | _ => false
  end.

(** The walk of [setByPath].  For an inherited member other than
    [__proto__] the guard finds a function, whose [typeof] is not
    "object", and overwrites it by an own property like a missing one:
    this is what the test on the own properties gives. *)
Fixpoint setByPath_walk (segments : list string) (current value : JValue)
  : Completion JValue :=
  match segments with
  | [] => Normal current
  | [lastSegment] => js_set current lastSegment value
  | segment :: rest =>
      if enters_proto current segment then Unmodelled else
      present ← js_in segment current;
      current' ← (if negb present
                     || negb (String.eqb (typeof (prop current segment)) "object")
                  then js_set current segment (JObj ∅)
                  else Normal current);
      next' ← setByPath_walk rest (prop current' segment) value;
      Normal (aliased current' segment next')
  end.

(** The objects met along [segments] are plain objects: no [null] and no
    array stands at an intermediate segment. *)
Fixpoint plain_along (segments : list string) (current : JValue) : Prop :=
  match current, segments with
  | JObj _, ([] | [_]) => True
  | JObj m, segment :: rest =>
      match m !! segment with
      | Some (JObj m') => plain_along rest (JObj m')
      | Some JNull | Some (JArr _ _) => False
      | _ => True
      end
  | _, _ => False
  end.

Definition setByPath (obj : JValue) (path : string) (value : JValue)
  : Completion JValue :=
  let segments := path_segments path in
  if (length segments =? 0)%nat then Normal obj
  else setByPath_walk segments obj value.

Definition resolveDynamicValue (value dataModel : JValue) : Completion JValue :=
  match value with
  | JNull | JUndefined => Normal JUndefined
  | _ =>
      has_path ← (if String.eqb (typeof value) "object"
                  then js_in "path" value else Normal false);
      if (has_path : bool)
      then getByPath dataModel (prop value "path")
      else Normal value
  end.

End Core.

(** ** The UI tree and JSON patches *)

Module Tree.

(** [UITree]: [{ root, elements }].  [root] and the entries of [elements]
    are whatever the patch stream supplied ([patch.value] is cast, not
    checked).  [elements] holds the own entries of [tree.elements].
    [applyPatch] copies them into a fresh object before it reads or
    writes, so the prototype of its argument's [elements] is never read;
    the prototype of the [elements] it returns, which only a store under
    [__proto__] changes, is not recorded. *)
Record UITree : Type := mkTree { root : JValue; elements : gmap string JValue }.

Definition emptyTree : UITree := mkTree (JStr "") ∅.

(** [JsonPatch]: [{ op, path?, dataPath?, value? }]; an absent field is
    [JUndefined]. *)
Record JsonPatch : Type :=
  mkPatch { op : JValue; path : JValue; dataPath : JValue; value : JValue }.

(** The fields of a parsed line that passed [if (patch)]. *)
Definition patch_of_value (v : JValue) : JsonPatch :=
  mkPatch (prop v "op") (prop v "path") (prop v "dataPath") (prop v "value").

Definition elements_prefix : string := "/elements/".

(** The ops of the first [case] group of the switch. *)
Definition mutating_op (o : string) : Prop :=
  o = "set" ∨ o = "add" ∨ o = "replace".

(** [patch.path.slice("/elements/".length).split("/")] *)
Definition pathParts_of (p : string) : list string :=
  split "/" (slice (String.length elements_prefix) p).

(** [newTree.elements[elementKey] = v]: under the name [__proto__],
    unless the copy has an own entry of that name, the assignment runs
    the inherited setter and stores no entry. *)
Definition store (k : string) (v : JValue) (els : gmap string JValue)
  : gmap string JValue :=
  if reaches_proto els k then els else <[k := v]> els.

(** [{ ...element }] for the [element = newTree.elements[elementKey]]
    that passed [if (element)]: the copy of a truthy own entry, or of the
    member of [Object.prototype] found under an inherited name (a
    function, the prototype itself under [__proto__]), which has no
    enumerable property to copy.  [None]: the lookup is falsy. *)
Definition element_copy (els : gmap string JValue) (k : string)
  : option (gmap string JValue) :=
  match els !! k with
  | Some element => if truthy element then Some (spread element) else None
  | None => if inherited k then Some ∅ else None
  end.

(** The [switch (patch.op)] statement, the same text in utils.ts and in
    hooks.ts.  [newTree] is a copy of [tree] with a copied [elements]. *)
Definition applyPatch_switch (tree : UITree) (patch : JsonPatch) : Completion UITree :=
  let newTree := mkTree (root tree) (elements tree) in
  if is_string (op patch) "set" || is_string (op patch) "add"
     || is_string (op patch) "replace"
  then
    if is_string (path patch) "/root"
    then Normal (mkTree (value patch) (elements newTree))
    else
      p ← string_receiver (path patch);
      if startsWith p elements_prefix then
        let pathParts := pathParts_of p in
        let elementKey := hd "" pathParts in
        if negb (truthy (JStr elementKey)) then Normal newTree
        else if (length pathParts =? 1)%nat then
          Normal (mkTree (root newTree)
                    (store elementKey (value patch) (elements newTree)))
        else
          match element_copy (elements newTree) elementKey with
          | Some copy =>
              let propPath := "/" +:+ join "/" (tail pathParts) in
              let newElement := JObj copy in
              newElement' ← Core.setByPath newElement propPath (value patch);
              Normal (mkTree (root newTree)
                        (store elementKey newElement' (elements newTree)))
          | None => Normal newTree
          end
      else Normal newTree
  else if is_string (op patch) "remove" then
    p ← string_receiver (path patch);
    if startsWith p elements_prefix then
      let elementKey := hd "" (pathParts_of p) in
      if truthy (JStr elementKey)
      then Normal (mkTree (root newTree) (delete elementKey (elements newTree)))
      else Normal newTree
    else Normal newTree
  else Normal newTree.

End Tree.
Export Tree.

(** [JSON.parse] is the platform's; [None] stands for a thrown
    [SyntaxError].  Of the JSON grammar only this is used: the empty text
    and a text that begins with two slashes are not JSON. *)
Class JsonParser : Type := {
  JSON_parse : string → option JValue;
  JSON_parse_empty : JSON_parse "" = None;
  JSON_parse_comment : ∀ s, startsWith s "//" = true → JSON_parse s = None
}.

(** ** packages/react/src/utils.ts *)

Module Utils.

Definition parsePatchLine `{JsonParser} (line : string) : JValue :=
  let trimmed := trim line in
  if negb (truthy (JStr trimmed)) || startsWith trimmed "//" then JNull
  else match JSON_parse trimmed with
       | Some patch => patch
       | None => JNull
       end.

Definition applyPatch (tree : UITree) (patch : JsonPatch) : Completion UITree :=
  if negb (truthy (path patch)) then Normal tree
  else applyPatch_switch tree patch.

(** [processPatch(patch, currentTree, onDataPatch)]; [onDataPatch] tells
    whether the callback was supplied, and the first component lists the
    patches handed to it. *)
Definition processPatch (patch : JsonPatch) (currentTree : UITree)
    (onDataPatch : bool) : list JsonPatch * Completion UITree :=
  if truthy (dataPath patch) && onDataPatch
  then ([patch], Normal currentTree)
  else ([], applyPatch currentTree patch).

End Utils.

(** ** packages/react/src/hooks.ts *)

Module Hooks.

(** Same text as in utils.ts. *)
Definition parsePatchLine `{JsonParser} (line : string) : JValue :=
  Utils.parsePatchLine line.

(** No guard on [patch.path] here. *)
Definition applyPatch (tree : UITree) (patch : JsonPatch) : Completion UITree :=
  applyPatch_switch tree patch.

(** The state of one [useUIStream] instance, with the calls made to the
    [onError] and [onComplete] callbacks. *)
Record HookState : Type := mkHook {
  tree : option UITree;
  isStreaming : bool;
  error : option JsError;
  onErrorCalls : list JsError;
  onCompleteCalls : list UITree
}.

Definition setTree (t : option UITree) (st : HookState) : HookState :=
  mkHook t (isStreaming st) (error st) (onErrorCalls st) (onCompleteCalls st).
Definition setIsStreaming (b : bool) (st : HookState) : HookState :=
  mkHook (tree st) b (error st) (onErrorCalls st) (onCompleteCalls st).
Definition setError (e : option JsError) (st : HookState) : HookState :=
  mkHook (tree st) (isStreaming st) e (onErrorCalls st) (onCompleteCalls st).
Definition onError (e : JsError) (st : HookState) : HookState :=
  mkHook (tree st) (isStreaming st) (error st) (onErrorCalls st ++ [e]) (onCompleteCalls st).
Definition onComplete (t : UITree) (st : HookState) : HookState :=
  mkHook (tree st) (isStreaming st) (error st) (onErrorCalls st) (onCompleteCalls st ++ [t]).

(** Statements of [send]: a completion together with the hook state.
    One invocation of [send] is modelled from its call to its return,
    given what the transport delivers; the abort of an earlier invocation
    that is still in flight is outside this model. *)
Definition Hook (A : Type) : Type := HookState → Completion A * HookState.

Definition hret {A} (a : A) : Hook A := fun st => (Normal a, st).
Definition hthrow {A} (e : JsError) : Hook A := fun st => (Throw e, st).
Definition hlift {A} (c : Completion A) : Hook A := fun st => (c, st).
Definition hdo (f : HookState → HookState) : Hook unit := fun st => (Normal tt, f st).
Definition hbind {A B} (c : Hook A) (k : A → Hook B) : Hook B :=
  fun st =>
    match c st with
    | (Normal a, st') => k a st'
    | (Throw e, st') => (Throw e, st')
    | (Unmodelled, st') => (Unmodelled, st')
    end.

#[global] Instance Hook_ret : MRet Hook := fun A a => hret a.
#[global] Instance Hook_bind : MBind Hook := fun A B k c => hbind c k.

(** What the transport delivers to one invocation of [send]. *)
Inductive ReadEnd : Type :=
| Done
| ReadFails (e : JsError).

Inductive Transport : Type :=
| FetchRejects (e : JsError)
| Response (ok : bool) (status : N) (json : option JValue)
           (body : option (list string * ReadEnd)).

(** The body of [for (const line of lines)] and of the final-fragment
    block. *)
Definition on_line `{JsonParser} (line : string) (currentTree : UITree) : Hook UITree :=
  let patch := parsePatchLine line in
  if truthy patch then
    currentTree ← hlift (applyPatch currentTree (patch_of_value patch));
    _ ← hdo (setTree (Some currentTree));
    hret currentTree
  else hret currentTree.

Fixpoint for_lines `{JsonParser} (lines : list string) (currentTree : UITree) : Hook UITree :=
  match lines with
  | [] => hret currentTree
  | line :: rest =>
      currentTree ← on_line line currentTree;
      for_lines rest currentTree
  end.

(** [while (true) { const { done, value } = await reader.read(); ... }];
    the chunks are the texts [decoder.decode(value, { stream: true })]. *)
Fixpoint read_loop `{JsonParser} (chunks : list string) (fin : ReadEnd)
    (buffer : string) (currentTree : UITree) : Hook (string * UITree) :=
  match chunks with
  | [] =>
      match fin with
      | Done => hret (buffer, currentTree)
      | ReadFails e => hthrow e
      end
  | value :: more =>
      let buffer := buffer +:+ value in
      let lines := split newline buffer in
      let buffer := List.last lines "" in
      let lines := removelast lines in
      currentTree ← for_lines lines currentTree;
      read_loop more fin buffer currentTree
  end.

(** The whole text of a chunk sequence. *)
Definition chunks_text (chunks : list string) : string :=
  foldr String.append "" chunks.

(** The message of the error thrown for a response that is not ok. *)
Definition errorMessage (status : N) (json : option JValue) : JValue :=
  let fallback := JStr ("HTTP error: " +:+ pretty status) in
  match json with
  | None => fallback
  | Some errorData =>
      match js_get errorData "message", js_get errorData "error" with
      | Normal m, Normal e =>
          if truthy m then m else if truthy e then e else fallback
      | _, _ => fallback
      end
  end.

(** The error a transport raises before any chunk is read: a rejected
    [fetch], or a response that is not ok. *)
Definition transport_failure (transport : Transport) : option JsError :=
  match transport with
  | FetchRejects e => Some e
  | Response false status json _ => Some (new_Error (errorMessage status json))
  | Response true _ _ _ => None
  end.

(** The [try] block of [send]. *)
Definition send_try `{JsonParser} (transport : Transport) (currentTree : UITree)
  : Hook unit :=
  match transport with
  | FetchRejects e => hthrow e
  | Response ok status json body =>
      if negb ok then hthrow (new_Error (errorMessage status json))
      else match body with
           | None => hthrow (new_Error (JStr "No response body"))
           | Some (chunks, fin) =>
               r ← read_loop chunks fin "" currentTree;
               let buffer := r.1 in
               let currentTree := r.2 in
               currentTree ← (if truthy (JStr (trim buffer))
                              then on_line buffer currentTree
                              else hret currentTree);
               hdo (onComplete currentTree)
           end
  end.

(** The tree [send] starts from: [context?.previousTree] when its root is
    truthy, otherwise the empty tree. *)
Definition startTree (previousTree : option UITree) : UITree :=
  match previousTree with
  | Some previous =>
      if truthy (root previous)
      then mkTree (root previous) (elements previous)
      else emptyTree
  | None => emptyTree
  end.

(** [send(prompt, context)], given what the transport delivers. *)
Definition send `{JsonParser} (previousTree : option UITree) (transport : Transport)
    (st : HookState) : Completion HookState :=
  let st := setIsStreaming true st in
  let st := setError None st in
  let currentTree := startTree previousTree in
  let st := setTree (Some currentTree) st in
  match send_try transport currentTree st with
  | (Normal _, st) => Normal (setIsStreaming false st)
  | (Throw err, st) =>
      if String.eqb (err_name err) "AbortError"
      then Normal (setIsStreaming false st)
      else Normal (setIsStreaming false (onError err (setError (Some err) st)))
  | (Unmodelled, _) => Unmodelled
  end.

End Hooks.

(** ** The SolidJS data context (contexts/data.tsx) *)

Module Data.

(** [set(path, value)]: [setByPath] on a shallow copy of the data model.
    The [onDataChange] callback is not recorded. *)
Definition set (path : string) (value : JValue) (data : JValue) : Completion JValue :=
  Core.setByPath (JObj (spread data)) path value.

End Data.

(** ** The SolidJS validation context *)

Module Validation.

Record ValidationResult : Type := mkResult { valid : bool; errors : list string }.

(** What the provider imports from the core package and receives as
    props: the type of a field's checks and [runValidation], closed over
    the provider's [customFunctions] and [authState()]; its arguments are
    the configuration, the value at the field's path and the data model. *)
Class ValidationDeps : Type := {
  ValidationConfig : Type;
  runValidation : ValidationConfig → JValue → JValue → ValidationResult
}.

Record FieldValidationState : Type :=
  mkField { touched : bool; validated : bool; result : option ValidationResult }.

Section Provider.
Context `{ValidationDeps}.

(** The two signals of the provider. *)
Record ProviderState : Type := mkProvider {
  fieldStates : gmap string FieldValidationState;
  fieldConfigs : gmap string ValidationConfig
}.

Definition registerField (path : string) (config : ValidationConfig)
    (st : ProviderState) : ProviderState :=
  mkProvider (fieldStates st) (<[path := config]> (fieldConfigs st)).

(** [validate(path, config)] against the data model [dataModel = data()]. *)
Definition validate (dataModel : JValue) (path : string) (config : ValidationConfig)
    (st : ProviderState) : ValidationResult * ProviderState :=
  let value := Core.getByPath_string dataModel path in
  let result := runValidation config value dataModel in
  let prev := fieldStates st in
  (result,
   mkProvider
     (<[path := mkField (match prev !! path with
                         | Some f => touched f
                         | None => true
                         end) true (Some result)]> prev)
     (fieldConfigs st)).

Definition touch (path : string) (st : ProviderState) : ProviderState :=
  let prev := fieldStates st in
  mkProvider
    (<[path := mkField true
                 (match prev !! path with Some f => validated f | None => false end)
                 (match prev !! path with Some f => result f | None => None end)]> prev)
    (fieldConfigs st).

Definition clear (path : string) (st : ProviderState) : ProviderState :=
  mkProvider (delete path (fieldStates st)) (fieldConfigs st).

(** The outcome of validating one field against the data model. *)
Definition field_result (dataModel : JValue) (path : string)
    (config : ValidationConfig) : ValidationResult :=
  runValidation config (Core.getByPath_string dataModel path) dataModel.

(** The state [validate] records for a field. *)
Definition validated_state (dataModel : JValue) (before : ProviderState)
    (path : string) (config : ValidationConfig) : FieldValidationState :=
  mkField (match fieldStates before !! path with
           | Some f => touched f
           | None => true
           end) true (Some (field_result dataModel path config)).

(** The body of the [for ... of Object.entries(fieldConfigs())] loop. *)
Definition validateAll_step (dataModel : JValue) (acc : bool * ProviderState)
    (entry : string * ValidationConfig) : bool * ProviderState :=
  let r := validate dataModel entry.1 entry.2 acc.2 in
  (if negb (valid r.1) then false else acc.1, r.2).

(** [validateAll()]; [entries] is [Object.entries(fieldConfigs())]. *)
Definition validateAll_over (dataModel : JValue)
    (entries : list (string * ValidationConfig)) (st : ProviderState)
    : bool * ProviderState :=
  foldl (validateAll_step dataModel) (true, st) entries.

(** The registered fields are enumerated in the order of [map_to_list];
    the properties below hold for any order. *)
Definition validateAll (dataModel : JValue) (st : ProviderState)
    : bool * ProviderState :=
  validateAll_over dataModel (map_to_list (fieldConfigs st)) st.

End Provider.

End Validation.

(** ** The SolidJS action context (contexts/actions.tsx) *)

Module Actions.

(** A value of an [onSuccess]/[onError] mutation. *)
Inductive MutationValue : Type :=
| Literal (v : JValue)
| ResultRef         (* denotes the handler's result *)
| ErrorMessageRef.  (* denotes the error's message *)

Definition MutationSpec : Type := list (string * MutationValue).

(** [Action] and [ResolvedAction]; an absent [confirm] is [JUndefined],
    an absent [onSuccess]/[onError] the empty list. *)
Record Action : Type := mkAction {
  a_name : string;
  a_params : option (gmap string JValue);
  a_confirm : JValue;
  a_onSuccess : MutationSpec;
  a_onError : MutationSpec
}.

Record ResolvedAction : Type := mkResolved {
  r_name : string;
  r_params : gmap string JValue;
  r_confirm : JValue;
  r_onSuccess : MutationSpec;
  r_onError : MutationSpec
}.

(** What a handler call settles to. *)
Inductive HandlerOutcome : Type :=
| Succeeds (result : JValue)
| Fails (e : JsError).

(** A handler maps the resolved params to its outcome; handlers that
    dispatch further actions are outside this model. *)
Definition ActionHandler : Type := gmap string JValue → HandlerOutcome.

(** Modelled from the spec: [resolveAction] of the core package is not
    among the sources.  "Resolve every params entry via the Dynamic Value
    Evaluator against the current DataModel snapshot, producing a
    ResolvedAction". *)
Definition resolveParams (params : gmap string JValue) (dataModel : JValue)
  : Completion (gmap string JValue) :=
  foldr (fun kv acc =>
           m ← acc;
           v ← Core.resolveDynamicValue kv.2 dataModel;
           Normal (<[kv.1 := v]> m))
        (Normal ∅) (map_to_list params).

Definition resolveAction (action : Action) (dataModel : JValue)
  : Completion ResolvedAction :=
  resolved ← resolveParams (default ∅ (a_params action)) dataModel;
  Normal (mkResolved (a_name action) resolved (a_confirm action)
            (a_onSuccess action) (a_onError action)).

Inductive PromiseState : Type :=
| Pending
| Fulfilled
| Rejected (e : JsError).

(** [PendingConfirmation]; its [resolve]/[reject] callbacks settle the
    promise returned by the call of [execute] numbered [pc_promise]. *)
Record PendingConfirmation : Type := mkPending {
  pc_action : ResolvedAction;
  pc_handler : ActionHandler;
  pc_promise : nat
}.

(** The signals of the provider, the data model it reads and writes, the
    promises returned by [execute] so far, and the handler calls made. *)
Record ActionState : Type := mkState {
  data : JValue;
  handlers : gmap string ActionHandler;
  loadingActions : gset string;
  pendingConfirmation : option PendingConfirmation;
  promises : list PromiseState;
  handlerCalls : list (string * gmap string JValue);
  warnings : list string
}.

Definition setData (d : JValue) (st : ActionState) : ActionState :=
  mkState d (handlers st) (loadingActions st) (pendingConfirmation st)
    (promises st) (handlerCalls st) (warnings st).
Definition setLoadingActions (l : gset string) (st : ActionState) : ActionState :=
  mkState (data st) (handlers st) l (pendingConfirmation st)
    (promises st) (handlerCalls st) (warnings st).
Definition setPendingConfirmation (p : option PendingConfirmation) (st : ActionState)
  : ActionState :=
  mkState (data st) (handlers st) (loadingActions st) p
    (promises st) (handlerCalls st) (warnings st).
Definition setPromises (ps : list PromiseState) (st : ActionState) : ActionState :=
  mkState (data st) (handlers st) (loadingActions st) (pendingConfirmation st)
    ps (handlerCalls st) (warnings st).
Definition settle (id : nat) (p : PromiseState) (st : ActionState) : ActionState :=
  setPromises (<[id := p]> (promises st)) st.
Definition recordCall (n : string) (ps : gmap string JValue) (st : ActionState)
  : ActionState :=
  mkState (data st) (handlers st) (loadingActions st) (pendingConfirmation st)
    (promises st) (handlerCalls st ++ [(n, ps)]) (warnings st).
Definition warn (w : string) (st : ActionState) : ActionState :=
  mkState (data st) (handlers st) (loadingActions st) (pendingConfirmation st)
    (promises st) (handlerCalls st) (warnings st ++ [w]).

Definition registerHandler (n : string) (h : ActionHandler) (st : ActionState)
  : ActionState :=
  mkState (data st) (<[n := h]> (handlers st)) (loadingActions st)
    (pendingConfirmation st) (promises st) (handlerCalls st) (warnings st).

Definition message_value (e : JsError) : JValue :=
  match err_message e with
  | Msg s => JStr s
  | MsgOf v => v
  end.

(** The declared mutations, applied in order through [set] of the data
    context.  The outcome is [Fulfilled], or [Rejected] by the first
    [set] that throws. *)
Fixpoint applyMutations (spec : MutationSpec) (result errorMessage : JValue)
    (st : ActionState) : Completion (PromiseState * ActionState) :=
  match spec with
  | [] => Normal (Fulfilled, st)
  | (path, v) :: rest =>
      let v := match v with
               | Literal x => x
               | ResultRef => result
               | ErrorMessageRef => errorMessage
               end in
      match Data.set path v (data st) with
      | Normal d => applyMutations rest result errorMessage (setData d st)
      | Throw e => Normal (Rejected e, st)
      | Unmodelled => Unmodelled
      end
  end.

(** Modelled from the spec: [executeAction] of the core package is not
    among the sources.  "Invokes the handler with the resolved params,
    and on success applies onSuccess's declared DataModel mutations; on
    thrown/rejected failure applies onError's mutations".  The first
    component is how the returned promise settles. *)
Definition executeAction (action : ResolvedAction) (handler : ActionHandler)
    (st : ActionState) : Completion (PromiseState * ActionState) :=
  let st := recordCall (r_name action) (r_params action) st in
  match handler (r_params action) with
  | Succeeds result => applyMutations (r_onSuccess action) result JUndefined st
  | Fails e =>
      r ← applyMutations (r_onError action) JUndefined (message_value e) st;
      Normal (match r.1 with Rejected e' => Rejected e' | _ => Rejected e end, r.2)
  end.

(** [setLoadingActions(add); try { await executeAction(...) } finally
    { setLoadingActions(delete) }], settling promise [id]. *)
Definition run (resolved : ResolvedAction) (handler : ActionHandler) (id : nat)
    (st : ActionState) : Completion ActionState :=
  let st := setLoadingActions ({[r_name resolved]} ∪ loadingActions st) st in
  r ← executeAction resolved handler st;
  let st := r.2 in
  let st := setLoadingActions (loadingActions st ∖ {[r_name resolved]}) st in
  Normal (settle id r.1 st).

(** [execute(action)]: the number of the promise it returns and the new
    state. *)
Definition execute (action : Action) (st : ActionState)
  : Completion (nat * ActionState) :=
  let id := length (promises st) in
  let st := setPromises (promises st ++ [Pending]) st in
  match resolveAction action (data st) with
  | Normal resolved =>
      match handlers st !! r_name resolved with
      | None =>
          Normal (id, settle id Fulfilled
                        (warn ("No handler registered for action: "
                               +:+ r_name resolved) st))
      | Some handler =>
          if truthy (r_confirm resolved)
          then Normal (id, setPendingConfirmation
                             (Some (mkPending resolved handler id)) st)
          else st ← run resolved handler id st; Normal (id, st)
      end
  | Throw e => Normal (id, settle id (Rejected e) st)
  | Unmodelled => Unmodelled
  end.

(** [confirm()]: [pendingConfirmation()?.resolve()], after which the
    [then] callback of the suspended [execute] runs. *)
Definition confirm (st : ActionState) : Completion ActionState :=
  match pendingConfirmation st with
  | Some pc =>
      let st := setPendingConfirmation None st in
      run (pc_action pc) (pc_handler pc) (pc_promise pc) st
  | None => Normal st
  end.

(** [cancel()]: [pendingConfirmation()?.reject()]. *)
Definition cancel (st : ActionState) : ActionState :=
  match pendingConfirmation st with
  | Some pc =>
      let st := setPendingConfirmation None st in
      settle (pc_promise pc) (Rejected (new_Error (JStr "Action cancelled"))) st
  | None => st
  end.

End Actions.

(** ** Example data *)

Module Scenario.

(** JSON texts are written with ['] for the double quote. *)
Fixpoint json_text (s : string) : string :=
  match s with
  | EmptyString => EmptyString
  | String c r =>
      String (if Ascii.eqb c "'" then "034"%char else c) (json_text r)
  end.

Definition line_root : string :=
  json_text "{'op':'set','path':'/root','value':'a'}".
Definition line_a : string :=
  json_text "{'op':'add','path':'/elements/a','value':{'key':'a','type':'Card','props':{'title':'X'},'children':['b']}}".
Definition line_b : string :=
  json_text "{'op':'add','path':'/elements/b','value':{'key':'b','type':'Text','props':{'content':'hi'}}}".
Definition line_title : string :=
  json_text "{'op':'replace','path':'/elements/x/props/title','value':'T'}".

Definition element_a : JValue :=
  js_object [("key", JStr "a"); ("type", JStr "Card");
             ("props", js_object [("title", JStr "X")]);
             ("children", js_array [JStr "b"])].
Definition element_b : JValue :=
  js_object [("key", JStr "b"); ("type", JStr "Text");
             ("props", js_object [("content", JStr "hi")])].

Definition patch_value (o p : string) (v : JValue) : JValue :=
  js_object [("op", JStr o); ("path", JStr p); ("value", v)].

(** The fragment of [JSON.parse] on the texts above. *)
Definition table : list (string * JValue) :=
  [ (line_root, patch_value "set" "/root" (JStr "a"));
    (line_a, patch_value "add" "/elements/a" element_a);
    (line_b, patch_value "add" "/elements/b" element_b);
    (line_title, patch_value "replace" "/elements/x/props/title" (JStr "T")) ].

Fixpoint lookup_text (t : list (string * JValue)) (s : string) : option JValue :=
  match t with
  | [] => None
  | (k, v) :: rest => if String.eqb k s then Some v else lookup_text rest s
  end.

Definition tree_ab : UITree :=
  mkTree (JStr "a") (<["b" := element_b]> (<["a" := element_a]> ∅)).

Definition idle : Hooks.HookState := Hooks.mkHook None false None [] [].

Definition nl : string := String newline "".

(** The three lines of the end-to-end scenario, the last one without a
    final newline, and a split of that text inside the first two lines. *)
Definition scenario_text : string :=
  line_root +:+ nl +:+ line_a +:+ nl +:+ line_b.
Definition scenario_chunks : list string :=
  [ String.substring 0 17 scenario_text;
    String.substring 17 100 scenario_text;
    String.substring 117 1000 scenario_text ].

(** A hook that shows the tree of an earlier invocation. *)
Definition showing_ab : Hooks.HookState :=
  Hooks.mkHook (Some tree_ab) false None [] [].

Definition http_500 : Hooks.Transport := Hooks.Response false 500 None None.
Definition http_500_error : JsError := new_Error (JStr "HTTP error: 500").

(** A small [runValidation]: the checks "required" and "minLength",
    every failing check reported. *)
Inductive FieldCheck : Type :=
| Required
| MinLength (n : nat).

Definition check_passes (c : FieldCheck) (value : JValue) : bool :=
  match c with
  | Required => truthy value
  | MinLength n =>
      match value with
      | JStr s => (n <=? String.length s)%nat
      | _ => false
      end
  end.

Definition check_message (c : FieldCheck) : string :=
  match c with
  | Required => "required"
  | MinLength _ => "too short"
  end.

Definition run_checks (config : list FieldCheck) (value dataModel : JValue)
  : Validation.ValidationResult :=
  let failing := filter (fun c => check_passes c value = false) config in
  Validation.mkResult (bool_decide (failing = [])) (check_message <$> failing).

#[export] Instance checks : Validation.ValidationDeps := {|
  Validation.ValidationConfig := list FieldCheck;
  Validation.runValidation := run_checks
|}.

Definition form_data : JValue :=
  js_object [("email", JStr ""); ("name", JStr "Ada")].
Definition form_state : Validation.ProviderState :=
  Validation.registerField "/email" [Required; MinLength 8]
    (Validation.registerField "/name" [Required]
       (Validation.mkProvider ∅ ∅)).

(** The action of the refund scenario and what it resolves to. *)
Definition confirm_spec : JValue := js_object [("title", JStr "Confirm")].
Definition refund_action : Actions.Action :=
  Actions.mkAction "refund"
    (Some {[ "amount" := js_object [("path", JStr "/refund/amount")] ]})
    confirm_spec [] [].
Definition refund_params : gmap string JValue := {[ "amount" := JNum 50 ]}.
Definition refund_resolved : Actions.ResolvedAction :=
  Actions.mkResolved "refund" refund_params confirm_spec [] [].
Definition refund_data : JValue :=
  js_object [("refund", js_object [("amount", JNum 50)])].
Definition refund_handler : Actions.ActionHandler :=
  fun _ => Actions.Succeeds JUndefined.
Definition refund_state : Actions.ActionState :=
  Actions.mkState refund_data {[ "refund" := refund_handler ]} ∅ None [] [] [].

End Scenario.

(** ** The stream of utils.ts, built on [processPatch] *)

Module UtilsStream.

(** The hook state together with the patches handed to [onDataPatch]. *)
Record StreamState : Type := mkStream {
  hook : Hooks.HookState;
  onDataPatchCalls : list JsonPatch
}.

Definition on_hook (f : Hooks.HookState → Hooks.HookState) (st : StreamState)
  : StreamState :=
  mkStream (f (hook st)) (onDataPatchCalls st).

Definition Stream (A : Type) : Type := StreamState → Completion A * StreamState.

Definition sret {A} (a : A) : Stream A := fun st => (Normal a, st).
Definition sthrow {A} (e : JsError) : Stream A := fun st => (Throw e, st).
Definition slift {A} (c : Completion A) : Stream A := fun st => (c, st).
Definition sdo (f : StreamState → StreamState) : Stream unit :=
  fun st => (Normal tt, f st).
Definition sbind {A B} (c : Stream A) (k : A → Stream B) : Stream B :=
  fun st =>
    match c st with
    | (Normal a, st') => k a st'
    | (Throw e, st') => (Throw e, st')
    | (Unmodelled, st') => (Unmodelled, st')
    end.

#[global] Instance Stream_ret : MRet Stream := fun A a => sret a.
#[global] Instance Stream_bind : MBind Stream := fun A B k c => sbind c k.

(** [processPatch] returns its argument [currentTree] itself for a patch
    handed to [onDataPatch], and so does [applyPatch] for a patch without
    path; every other return of [applyPatch] is the fresh [newTree].  This
    decides [nextTree !== currentTree]. *)
Definition returns_argument (patch : JsonPatch) (onDataPatch : bool) : bool :=
  truthy (dataPath patch) && onDataPatch || negb (truthy (path patch)).

(** The body of [for (const line of lines)] and of the final-fragment
    block; [onDataPatch] tells whether the callback was supplied. *)
Definition on_line `{JsonParser} (onDataPatch : bool) (line : string)
    (currentTree : UITree) : Stream UITree :=
  let patch := Utils.parsePatchLine line in
  if truthy patch then
    let patch := patch_of_value patch in
    let r := Utils.processPatch patch currentTree onDataPatch in
    _ ← sdo (fun st => mkStream (hook st) (onDataPatchCalls st ++ r.1));
    nextTree ← slift r.2;
    if negb (returns_argument patch onDataPatch)
    then _ ← sdo (on_hook (Hooks.setTree (Some nextTree))); sret nextTree
    else sret currentTree
  else sret currentTree.

Fixpoint for_lines `{JsonParser} (onDataPatch : bool) (lines : list string)
    (currentTree : UITree) : Stream UITree :=
  match lines with
  | [] => sret currentTree
  | line :: rest =>
      currentTree ← on_line onDataPatch line currentTree;
      for_lines onDataPatch rest currentTree
  end.

Fixpoint read_loop `{JsonParser} (onDataPatch : bool) (chunks : list string)
    (fin : Hooks.ReadEnd) (buffer : string) (currentTree : UITree)
  : Stream (string * UITree) :=
  match chunks with
  | [] =>
      match fin with
      | Hooks.Done => sret (buffer, currentTree)
      | Hooks.ReadFails e => sthrow e
      end
  | value :: more =>
      let buffer := buffer +:+ value in
      let lines := split newline buffer in
      let buffer := List.last lines "" in
      let lines := removelast lines in
      currentTree ← for_lines onDataPatch lines currentTree;
      read_loop onDataPatch more fin buffer currentTree
  end.

(** The [try] block of [send]; the error of a response that is not ok
    carries the status only. *)
Definition send_try `{JsonParser} (onDataPatch : bool)
    (transport : Hooks.Transport) (currentTree : UITree) : Stream unit :=
  match transport with
  | Hooks.FetchRejects e => sthrow e
  | Hooks.Response ok status _ body =>
      if negb ok
      then sthrow (new_Error (JStr ("HTTP error: " +:+ pretty status)))
      else match body with
           | None => sthrow (new_Error (JStr "No response body"))
           | Some (chunks, fin) =>
               r ← read_loop onDataPatch chunks fin "" currentTree;
               let buffer := r.1 in
               let currentTree := r.2 in
               currentTree ← (if truthy (JStr (trim buffer))
                              then on_line onDataPatch buffer currentTree
                              else sret currentTree);
               sdo (on_hook (Hooks.onComplete currentTree))
           end
  end.

(** [send(prompt, context)]: it always starts from the empty tree. *)
Definition send `{JsonParser} (onDataPatch : bool) (transport : Hooks.Transport)
    (st : StreamState) : Completion StreamState :=
  let st := on_hook (Hooks.setIsStreaming true) st in
  let st := on_hook (Hooks.setError None) st in
  let currentTree := emptyTree in
  let st := on_hook (Hooks.setTree (Some currentTree)) st in
  match send_try onDataPatch transport currentTree st with
  | (Normal _, st) => Normal (on_hook (Hooks.setIsStreaming false) st)
  | (Throw err, st) =>
      if String.eqb (err_name err) "AbortError"
      then Normal (on_hook (Hooks.setIsStreaming false) st)
      else Normal (on_hook (Hooks.setIsStreaming false)
                     (on_hook (Hooks.onError err)
                        (on_hook (Hooks.setError (Some err)) st)))
  | (Unmodelled, _) => Unmodelled
  end.

End UtilsStream.

(** ** The data context, further (contexts/data.tsx) *)

Module DataMore.

(** [get(path)] *)
Definition get (path : string) (data : JValue) : JValue :=
  Core.getByPath_string data path.

(** The loop of [update]: every entry is written into the one copy. *)
Fixpoint update_loop (updates : list (string * JValue)) (next : JValue)
  : Completion JValue :=
  match updates with
  | [] => Normal next
  | (path, value) :: rest =>
      next ← Core.setByPath next path value;
      update_loop rest next
  end.

(** [update(updates)]; [updates] lists [Object.entries(updates)]. *)
Definition update (updates : list (string * JValue)) (data : JValue)
  : Completion JValue :=
  update_loop updates (JObj (spread data)).

(** Successive calls [set(path, value)], one per entry, in order. *)
Fixpoint set_each (updates : list (string * JValue)) (data : JValue)
  : Completion JValue :=
  match updates with
  | [] => Normal data
  | (path, value) :: rest =>
      data ← Data.set path value data;
      set_each rest data
  end.

End DataMore.

(** ** The field hook of the validation context *)

Module FieldHook.
Import Validation.

Section Hook.
Context `{ValidationDeps}.

(** [state()] of [useFieldValidation]. *)
Definition state (path : string) (st : ProviderState) : FieldValidationState :=
  default (mkField false false None) (fieldStates st !! path).

(** [errors()] *)
Definition field_errors (path : string) (st : ProviderState) : list string :=
  match result (state path st) with
  | Some r => errors r
  | None => []
  end.

(** [isValid()] *)
Definition isValid (path : string) (st : ProviderState) : bool :=
  match result (state path st) with
  | Some r => valid r
  | None => true
  end.

(** The calls a provider receives. *)
Inductive Call : Type :=
| CallRegister (path : string) (config : ValidationConfig)
| CallValidate (dataModel : JValue) (path : string) (config : ValidationConfig)
| CallTouch (path : string)
| CallClear (path : string)
| CallValidateAll (dataModel : JValue).

Definition call (st : ProviderState) (c : Call) : ProviderState :=
  match c with
  | CallRegister path config => registerField path config st
  | CallValidate dataModel path config => (validate dataModel path config st).2
  | CallTouch path => touch path st
  | CallClear path => clear path st
  | CallValidateAll dataModel => (validateAll dataModel st).2
  end.

(** The provider after a sequence of calls, from its initial signals. *)
Definition after (calls : list Call) : ProviderState :=
  foldl call (mkProvider ∅ ∅) calls.

(** Every state a provider holds was made by [validate] or by [touch]:
    it is touched, and validated exactly when it carries a result. *)
Definition well_formed (st : ProviderState) : Prop :=
  ∀ path f,
    fieldStates st !! path = Some f →
    touched f = true ∧ (validated f = true ↔ is_Some (result f)).

End Hook.

End FieldHook.

(** ** [flatToTree] (hooks.ts, utils.ts) *)

Module Flat.

(** An element of the flat list and of the resulting tree, as their
    TypeScript types declare them. *)
Record FlatElement : Type := mkFlat {
  f_key : string;
  f_type : string;
  f_props : JValue;
  f_visible : JValue;
  f_parentKey : option string   (* [None]: null or absent *)
}.

Record UIElement : Type := mkElement {
  key : string;
  type : string;
  props : JValue;
  children : option (list string);
  visible : JValue
}.

Record TypedTree : Type := mkTyped {
  root : string;
  elements : gmap string UIElement
}.

(** The parent named by [if (element.parentKey)]: the empty string is
    falsy. *)
Definition parent_of (e : FlatElement) : option string :=
  match f_parentKey e with
  | Some p => if String.eqb p "" then None else Some p
  | None => None
  end.

(** First pass: every element enters the map with no children. *)
Definition first_pass (elements : list FlatElement) : gmap string UIElement :=
  foldl (fun m e =>
           <[f_key e := mkElement (f_key e) (f_type e) (f_props e) (Some [])
                          (f_visible e)]> m)
        ∅ elements.

(** [parent.children.push(key)], after [if (!parent.children)
    parent.children = []]. *)
Definition push_child (k : string) (parent : UIElement) : UIElement :=
  mkElement (key parent) (type parent) (props parent)
    (Some (default [] (children parent) ++ [k])) (visible parent).

(** The pushes of several children, one after the other. *)
Definition push_children (ks : list string) (el : UIElement) : UIElement :=
  foldl (fun el k => push_child k el) el ks.

(** The entry the first pass makes for a list element. *)
Definition entry_of (e : FlatElement) : UIElement :=
  mkElement (f_key e) (f_type e) (f_props e) (Some []) (f_visible e).

(** Second pass, one element. *)
Definition link (acc : string * gmap string UIElement) (e : FlatElement)
  : string * gmap string UIElement :=
  match parent_of e with
  | Some p =>
      match acc.2 !! p with
      | Some parent => (acc.1, <[p := push_child (f_key e) parent]> acc.2)
      | None => acc
      end
  | None => (f_key e, acc.2)
  end.

(** [flatToTree(elements)].  The map [elementMap] is modelled by its own
    entries.  This is what the source builds for a list in which no key
    and no parent key names a member of [Object.prototype]
    ([plain_names]); for another list the source may set the prototype of
    the map, write to a built-in object, or throw, while [root] is
    computed as here whenever it returns. *)
Definition flatToTree (elements : list FlatElement) : TypedTree :=
  let r := foldl link ("", first_pass elements) elements in
  mkTyped r.1 r.2.

(** Neither the key nor the parent key of [e] names a member of
    [Object.prototype]. *)
Definition plain_names (e : FlatElement) : bool :=
  negb (inherited (f_key e))
  && match parent_of e with
     | Some p => negb (inherited p)
     | None => true
     end.

End Flat.

(** ** The Adaptive Cards adapter *)

Module AdaptiveCards.
Import Flat.

(** [AdaptiveCardNode]: one card element or an array of them. *)
Inductive CardNode : Type :=
| One (card : JValue)
| Many (cards : list JValue).

Definition Component : Type := UIElement → list JValue → CardNode.

Definition unknown_component (t : string) : JValue :=
  js_object [("type", JStr "TextBlock");
             ("text", JStr ("[Unknown component: " +:+ t +:+ "]"));
             ("color", JStr "Attention");
             ("wrap", JBool true)].

(** [renderElement(key, tree, registry)] on a well-typed tree.  The
    recursion of the source is not bounded; [fuel] bounds its depth and
    [None] says that the bound was reached. *)
Fixpoint renderElement (fuel : nat) (tree : TypedTree)
    (registry : gmap string Component) (k : string) : option (list JValue) :=
  match fuel with
  | O => None
  | S fuel =>
      match elements tree !! k with
      | None => Some []
      | Some element =>
          match registry !! type element with
          | None => Some [unknown_component (type element)]
          | Some component =>
              rendered ← mapM (renderElement fuel tree registry)
                            (default [] (children element));
              let result := component element (concat rendered) in
              Some (match result with
                    | One card => [card]
                    | Many cards => cards
                    end)
          end
      end
  end.

Record Options : Type := mkOptions {
  version : option string;
  fallbackText : option string
}.

Definition renderAdaptiveCard (fuel : nat) (tree : TypedTree)
    (registry : gmap string Component) (options : Options) : option JValue :=
  rootElements ← renderElement fuel tree registry (root tree);
  Some (js_object
          [("type", JStr "AdaptiveCard");
           ("version", JStr (match version options with
                             | Some v => if String.eqb v "" then "1.5" else v
                             | None => "1.5"
                             end));
           ("body", js_array rootElements);
           ("fallbackText", match fallbackText options with
                            | Some t => JStr t
                            | None => JUndefined
                            end)]).

End AdaptiveCards.

(** ** Further example data *)

Module ScenarioMore.
Import Scenario.

(** A patch line without path and a data patch line. *)
Definition line_pathless : string := json_text "{'op':'set','value':'a'}".
Definition line_data : string :=
  json_text "{'op':'set','dataPath':'/user/name','value':'Alice'}".
Definition pathless_value : JValue :=
  js_object [("op", JStr "set"); ("value", JStr "a")].
Definition data_value : JValue :=
  js_object [("op", JStr "set"); ("dataPath", JStr "/user/name");
             ("value", JStr "Alice")].

Definition table_more : list (string * JValue) :=
  table ++ [(line_pathless, pathless_value); (line_data, data_value)].

Definition idle_stream : UtilsStream.StreamState := UtilsStream.mkStream idle [].

Definition user_map : gmap string JValue :=
  {[ "user" := JObj {[ "name" := JStr "Ada" ]} ]}.

(** The tree and the registry of the adapter's first test. *)
Definition card_element : Flat.UIElement :=
  Flat.mkElement "root" "Card" (js_object [("title", JStr "Test Card")])
    (Some ["child1"]) JUndefined.
Definition text_element : Flat.UIElement :=
  Flat.mkElement "child1" "Text" (js_object [("content", JStr "Hello World")])
    None JUndefined.
Definition card_tree : Flat.TypedTree :=
  Flat.mkTyped "root" {[ "root" := card_element; "child1" := text_element ]}.

Definition card_component : AdaptiveCards.Component :=
  fun element children =>
    AdaptiveCards.One
      (js_object
         [("type", JStr "Container");
          ("items",
           js_array (js_object [("type", JStr "TextBlock");
                                ("text", prop (Flat.props element) "title");
                                ("weight", JStr "Bolder")]
                     :: children))]).
Definition text_component : AdaptiveCards.Component :=
  fun element _ =>
    AdaptiveCards.One
      (js_object [("type", JStr "TextBlock");
                  ("text", prop (Flat.props element) "content")]).
Definition card_registry : gmap string AdaptiveCards.Component :=
  {[ "Card" := card_component; "Text" := text_component ]}.

Definition card_rank (k : string) : nat :=
  if String.eqb k "root" then 1 else 0.

(** An element that lists itself as its child. *)
Definition loop_element : Flat.UIElement :=
  Flat.mkElement "loop" "Card" (JObj ∅) (Some ["loop"]) JUndefined.
Definition loop_tree : Flat.TypedTree :=
  Flat.mkTyped "loop" {[ "loop" := loop_element ]}.

(** A flat list: a card and its text. *)
Definition flat_card : list Flat.FlatElement :=
  [ Flat.mkFlat "root" "Card" (js_object [("title", JStr "Test Card")])
      JUndefined None;
    Flat.mkFlat "child1" "Text" (js_object [("content", JStr "Hello World")])
      JUndefined (Some "root") ].

(** Two writes into the data model. *)
Definition user_updates : list (string * JValue) :=
  [ ("/user/name", JStr "Alice"); ("/count", JNum 2) ].

(** Calls on a validation provider. *)
Definition form_calls : list FieldHook.Call :=
  [ FieldHook.CallRegister "/email" [Required; MinLength 8];
    FieldHook.CallTouch "/email";
    FieldHook.CallValidateAll form_data;
    FieldHook.CallClear "/name" ].

End ScenarioMore.

(** * Properties *)

(** ** The example parser obeys the grammar laws *)

Module ScenarioParser.
Import Scenario.

Lemma table_comment (s : string) :
  startsWith s "//" = true → lookup_text table s = None.
Proof.
  intros Hs. unfold table. cbn [lookup_text].
  repeat match goal with
         | |- context [String.eqb ?k s] =>
             destruct (String.eqb_spec k s) as [<- | _];
             [vm_compute in Hs; discriminate |]
         end.
  reflexivity.
Qed.

#[export] Instance parser : JsonParser := {|
  JSON_parse := lookup_text table;
  JSON_parse_empty := eq_refl;
  JSON_parse_comment := table_comment
|}.

End ScenarioParser.
Export ScenarioParser.

(** ** Strings *)

Section StringFacts.

Lemma append_cons (c : ascii) (s t : string) :
  String c s +:+ t = String c (s +:+ t).
Proof. reflexivity. Qed.

Lemma append_nil_r (s : string) : s +:+ "" = s.
Proof. induction s as [|c s IH]; [done |]. rewrite append_cons. by f_equal. Qed.

Lemma append_assoc (a b c : string) : (a +:+ b) +:+ c = a +:+ (b +:+ c).
Proof. induction a as [|x a IH]; [done |]. rewrite !append_cons. by f_equal. Qed.

Lemma split_not_nil (sep : ascii) (s : string) : split sep s ≠ [].
Proof.
  destruct s as [|c s]; simpl; [done |].
  destruct (Ascii.eqb c sep); [done |].
  by destruct (split sep s).
Qed.

(** Splitting a text in two and splitting the pieces: the lines that are
    complete in the first piece are final, its last fragment is continued
    by the second piece. *)
Lemma split_app (sep : ascii) (x y : string) :
  split sep (x +:+ y)
  = removelast (split sep x) ++ split sep (List.last (split sep x) "" +:+ y).
Proof.
  induction x as [|c x IH]; [done |].
  rewrite append_cons. cbn [split].
  pose proof (split_not_nil sep x) as Hne.
  destruct (Ascii.eqb c sep) eqn:Hc.
  - rewrite IH.
    destruct (split sep x) as [|h t] eqn:Hx; [done |]. reflexivity.
  - rewrite IH.
    destruct (split sep x) as [|h t] eqn:Hx; [done |].
    destruct t as [|h' t'].
    + cbn [removelast List.last app]. rewrite append_cons. cbn [split].
      by rewrite Hc.
    + reflexivity.
Qed.

(** The fragment held back holds no separator. *)
Lemma split_last_whole (sep : ascii) (s : string) :
  split sep (List.last (split sep s) "") = [List.last (split sep s) ""].
Proof.
  induction s as [|c s IH]; [done |].
  cbn [split]. pose proof (split_not_nil sep s) as Hne.
  destruct (Ascii.eqb c sep) eqn:Hc.
  - destruct (split sep s) as [|h t] eqn:Hs; [done |]. exact IH.
  - destruct (split sep s) as [|h t] eqn:Hs; [done |].
    destruct t as [|h' t'].
    + cbn [List.last] in *. cbn [split]. by rewrite Hc, IH.
    + exact IH.
Qed.

Lemma last_app_r {A} (l1 l2 : list A) (d : A) :
  l2 ≠ [] → List.last (l1 ++ l2) d = List.last l2 d.
Proof.
  intros Hne. induction l1 as [|a l1 IH]; [done |].
  cbn [app List.last]. destruct (l1 ++ l2) eqn:E; [| exact IH].
  by destruct l1, l2.
Qed.

End StringFacts.

(** ** The stream loop of [useUIStream] *)

Section StreamLoop.
Context `{JsonParser}.
Import Hooks.

Lemma hbind_unfold {A B} (c : Hook A) (k : A → Hook B) (st : HookState) :
  (c ≫= k) st
  = match c st with
    | (Normal a, st') => k a st'
    | (Throw e, st') => (Throw e, st')
    | (Unmodelled, st') => (Unmodelled, st')
    end.
Proof. reflexivity. Qed.

Lemma for_lines_app (l1 l2 : list string) (t : UITree) (st : HookState) :
  for_lines (l1 ++ l2) t st = (for_lines l1 t ≫= for_lines l2) st.
Proof.
  revert t st. induction l1 as [|line l1 IH]; intros t st.
  - reflexivity.
  - cbn [app for_lines]. rewrite !hbind_unfold.
    destruct (on_line line t st) as [[t'| |] st']; [| done | done].
    rewrite IH. by rewrite hbind_unfold.
Qed.

(** Reading the chunks one by one, or their whole text as one chunk,
    applies the same lines and holds back the same fragment. *)
Lemma read_loop_one_chunk (chunks : list string) (fin : ReadEnd) :
  ∀ (buffer : string) (t : UITree) (st : HookState),
    split newline buffer = [buffer] →
    read_loop chunks fin buffer t st
    = read_loop [chunks_text chunks] fin buffer t st.
Proof.
  induction chunks as [|c cs IH]; intros buffer t st Hbuf.
  - cbn [chunks_text foldr read_loop]. rewrite append_nil_r, Hbuf.
    reflexivity.
  - cbn [chunks_text foldr read_loop]. fold (chunks_text cs).
    rewrite <- append_assoc, (split_app newline (buffer +:+ c)).
    pose proof (split_not_nil newline (List.last (split newline (buffer +:+ c)) ""
                                         +:+ chunks_text cs)) as Hne.
    rewrite removelast_app by done.
    rewrite last_app_r by done.
    rewrite !hbind_unfold, for_lines_app, hbind_unfold.
    destruct (for_lines (removelast (split newline (buffer +:+ c))) t st)
      as [[t'| |] st']; [| done | done].
    rewrite IH by apply split_last_whole.
    cbn [read_loop]. by rewrite hbind_unfold.
Qed.

(** C4.  For every sequence of chunks, [send] ends in the same state, and
    so with the same final tree, as when the whole text of the chunks
    arrives as one chunk: the chunk boundaries, also those inside a line,
    do not matter.  The final-fragment handling after the source
    completes is part of [send]. *)
Theorem send_chunking_invariant (previousTree : option UITree) (status : N)
    (json : option JValue) (chunks : list string) (fin : ReadEnd)
    (st : HookState) :
  send previousTree (Response true status json (Some (chunks, fin))) st
  = send previousTree
      (Response true status json (Some ([chunks_text chunks], fin))) st.
Proof.
  unfold send. cbn [send_try negb].
  rewrite !hbind_unfold.
  by rewrite read_loop_one_chunk.
Qed.

(** *** What the loop does to the hook state: only [setTree] *)

Lemma setTree_setTree (a b : option UITree) (st : HookState) :
  setTree a (setTree b st) = setTree a st.
Proof. reflexivity. Qed.

Lemma setTree_same (t : UITree) (st : HookState) :
  tree st = Some t → setTree (Some t) st = st.
Proof. destruct st; cbn. by intros ->. Qed.

Lemma on_line_state (line : string) (t : UITree) (st : HookState) :
  tree st = Some t →
  ∃ t', (on_line line t st).2 = setTree (Some t') st
        ∧ ∀ r, (on_line line t st).1 = Normal r → r = t'.
Proof.
  intros Ht. unfold on_line.
  destruct (truthy (parsePatchLine line)).
  - rewrite !hbind_unfold. unfold hlift, hdo, hret.
    destruct (applyPatch t (patch_of_value (parsePatchLine line))) as [t'| |];
      cbn.
    + exists t'. split; [done |]. by intros r [= <-].
    + exists t. by rewrite setTree_same.
    + exists t. by rewrite setTree_same.
  - exists t. cbn. rewrite setTree_same by done. split; [done |]. by intros r [= <-].
Qed.

Lemma for_lines_state (lines : list string) :
  ∀ (t : UITree) (st : HookState),
    tree st = Some t →
    ∃ t', (for_lines lines t st).2 = setTree (Some t') st
          ∧ ∀ r, (for_lines lines t st).1 = Normal r → r = t'.
Proof.
  induction lines as [|line lines IH]; intros t st Ht.
  - exists t. cbn. rewrite setTree_same by done. split; [done |]. by intros r [= <-].
  - cbn [for_lines]. rewrite hbind_unfold.
    destruct (on_line_state line t st Ht) as (t1 & Hst & Hr).
    destruct (on_line line t st) as [[r1| |] st1] eqn:E; cbn in Hst, Hr.
    + rewrite (Hr r1 eq_refl). subst st1.
      destruct (IH t1 (setTree (Some t1) st) eq_refl) as (t2 & Hst2 & Hr2).
      exists t2. by rewrite Hst2, setTree_setTree.
    + exists t1. cbn. split; [done |]. by intros r [=].
    + exists t1. cbn. split; [done |]. by intros r [=].
Qed.

Lemma read_loop_state (chunks : list string) (fin : ReadEnd) :
  ∀ (buffer : string) (t : UITree) (st : HookState),
    tree st = Some t →
    ∃ t', (read_loop chunks fin buffer t st).2 = setTree (Some t') st
          ∧ ∀ r, (read_loop chunks fin buffer t st).1 = Normal r → r.2 = t'.
Proof.
  induction chunks as [|c cs IH]; intros buffer t st Ht.
  - exists t. destruct fin; cbn; rewrite setTree_same by done;
      (split; [done |]); by intros r [= <-].
  - cbn [read_loop]. rewrite hbind_unfold.
    destruct (for_lines_state (removelast (split newline (buffer +:+ c))) t st Ht)
      as (t1 & Hst & Hr).
    destruct (for_lines _ t st) as [[r1| |] st1] eqn:E; cbn in Hst, Hr.
    + rewrite (Hr r1 eq_refl). subst st1.
      destruct (IH (List.last (split newline (buffer +:+ c)) "") t1
                  (setTree (Some t1) st) eq_refl) as (t2 & Hst2 & Hr2).
      exists t2. by rewrite Hst2, setTree_setTree.
    + exists t1. cbn. split; [done |]. by intros r [=].
    + exists t1. cbn. split; [done |]. by intros r [=].
Qed.

(** A read that fails after the chunks: the same lines are applied as
    when the source completes, then the error is raised. *)
Lemma read_loop_fails (chunks : list string) (e : JsError) :
  ∀ (buffer : string) (t : UITree) (st : HookState),
    read_loop chunks (ReadFails e) buffer t st
    = match read_loop chunks Done buffer t st with
      | (Normal _, st') => (Throw e, st')
      | (Throw e', st') => (Throw e', st')
      | (Unmodelled, st') => (Unmodelled, st')
      end.
Proof.
  induction chunks as [|c cs IH]; intros buffer t st; [done |].
  cbn [read_loop]. rewrite !hbind_unfold.
  destruct (for_lines _ t st) as [[r1| |] st1]; [| done | done].
  apply IH.
Qed.

(** C1 (as amended).  When [fetch] rejects or the response is not ok, with
    an error not named AbortError, [send] ends with the error in the error
    value and handed to [onError] once, with [isStreaming] false, and with
    the tree [send] started from (a copy of [context.previousTree] when
    its root is truthy, else the empty tree).  When a read fails after
    some chunks, the tree is the one built from the lines of those chunks.
    The failure handling itself does not touch the tree. *)
Theorem send_transport_failure (previousTree : option UITree) (st : HookState)
    (e : JsError) :
  err_name e ≠ "AbortError" →
  (∀ transport,
     transport_failure transport = Some e →
     send previousTree transport st
     = Normal (mkHook (Some (startTree previousTree)) false (Some e)
                 (onErrorCalls st ++ [e]) (onCompleteCalls st)))
  ∧ (∀ status json chunks buffer t st1,
       read_loop chunks Done "" (startTree previousTree)
         (setTree (Some (startTree previousTree))
            (setError None (setIsStreaming true st)))
       = (Normal (buffer, t), st1) →
       send previousTree
         (Response true status json (Some (chunks, ReadFails e))) st
       = Normal (mkHook (Some t) false (Some e)
                   (onErrorCalls st ++ [e]) (onCompleteCalls st))).
Proof.
  intros Hname. apply String.eqb_neq in Hname. split.
  - intros transport Hfail. unfold send.
    assert (send_try transport (startTree previousTree)
              (setTree (Some (startTree previousTree))
                 (setError None (setIsStreaming true st)))
            = (Throw e, setTree (Some (startTree previousTree))
                          (setError None (setIsStreaming true st)))) as ->.
    { destruct transport as [e'|[] status json body]; cbn in Hfail;
        by simplify_eq. }
    by rewrite Hname.
  - intros status json chunks buffer t st1 Hloop. unfold send.
    cbn [send_try negb]. rewrite hbind_unfold, read_loop_fails, Hloop.
    rewrite Hname.
    destruct (read_loop_state chunks Done "" (startTree previousTree)
                (setTree (Some (startTree previousTree))
                   (setError None (setIsStreaming true st))) eq_refl)
      as (t' & Hst & Hr).
    rewrite Hloop in Hst, Hr. cbn in Hst, Hr.
    rewrite <- (Hr _ eq_refl) in Hst. by subst st1.
Qed.

(** C7.  A line that is blank after trimming, or starts with two slashes
    after trimming, or whose trimmed text [JSON.parse] rejects, makes
    [parsePatchLine] return [null], and the stream loop passes over it:
    normal completion, same tree, same hook state.  For a line whose
    trimmed text parses, [parsePatchLine] returns the parsed value. *)
Theorem parsePatchLine_skip_or_parse (line : string) :
  ((trim line = "" ∨ startsWith (trim line) "//" = true
    ∨ JSON_parse (trim line) = None) →
   Utils.parsePatchLine line = JNull
   ∧ ∀ t st, on_line line t st = (Normal t, st))
  ∧ (∀ v, JSON_parse (trim line) = Some v → Utils.parsePatchLine line = v).
Proof.
  split.
  - intros Hskip.
    assert (Utils.parsePatchLine line = JNull) as Hnull.
    { unfold Utils.parsePatchLine.
      destruct Hskip as [-> | [-> | Hparse]]; [done | by rewrite orb_true_r |].
      rewrite Hparse. by destruct (_ || _). }
    split; [done |]. intros t st. unfold on_line, parsePatchLine.
    by rewrite Hnull.
  - intros v Hparse. unfold Utils.parsePatchLine.
    destruct (trim line) as [|c r] eqn:Htrim.
    + by rewrite JSON_parse_empty in Hparse.
    + destruct (startsWith (String c r) "//") eqn:Hcomment.
      * by rewrite (JSON_parse_comment _ Hcomment) in Hparse.
      * cbn [truthy String.eqb negb orb]. by rewrite Hparse.
Qed.

(** Any two ways of cutting the same text into chunks end alike. *)
Corollary send_same_text (previousTree : option UITree) (status : N)
    (json : option JValue) (chunks1 chunks2 : list string) (fin : ReadEnd)
    (st : HookState) :
  chunks_text chunks1 = chunks_text chunks2 →
  send previousTree (Response true status json (Some (chunks1, fin))) st
  = send previousTree (Response true status json (Some (chunks2, fin))) st.
Proof.
  intros Htext. unfold send. cbn [send_try negb]. rewrite !hbind_unfold.
  rewrite (read_loop_one_chunk chunks1), (read_loop_one_chunk chunks2) by done.
  by rewrite Htext.
Qed.

End StreamLoop.

(** ** The tree reducer of utils.ts *)

Section Reducer.

Lemma tree_eta (t : UITree) : mkTree (root t) (elements t) = t.
Proof. by destruct t. Qed.

(** A separator in the text starts a new part. *)
Lemma split_app_sep (sep : ascii) (x y : string) :
  split sep (x +:+ String sep y) = split sep x ++ split sep y.
Proof.
  induction x as [|c x IH].
  - change (split sep (String sep y) = [EmptyString] ++ split sep y).
    cbn [split]. by rewrite Ascii.eqb_refl.
  - rewrite append_cons. cbn [split]. rewrite IH.
    pose proof (split_not_nil sep x) as Hne.
    destruct (Ascii.eqb c sep); [done |].
    by destruct (split sep x).
Qed.

Lemma pathParts_of_key (k : string) :
  pathParts_of (elements_prefix +:+ k) = split "/" k.
Proof. reflexivity. Qed.

Lemma startsWith_elements (k : string) :
  startsWith (elements_prefix +:+ k) elements_prefix = true.
Proof. reflexivity. Qed.

Lemma elements_path_not_root (k : string) :
  is_string (JStr (elements_prefix +:+ k)) "/root" = false.
Proof. reflexivity. Qed.

Lemma mutating_op_test (o : string) :
  mutating_op o →
  is_string (JStr o) "set" || is_string (JStr o) "add"
  || is_string (JStr o) "replace" = true.
Proof. by intros [-> | [-> | ->]]. Qed.

(** C3 (the code departs from it).  A set/add/replace patch whose path
    addresses a field below [/elements/{key}] is a no-op on a tree whose
    [elements] has no entry for that key, provided the key names no
    member of [Object.prototype]: [applyPatch] returns a tree equal to
    its input, in particular for the path [/elements/x/props/title] (a
    key holds no slash).  For a key that names an inherited member, such
    as [constructor], the lookup [newTree.elements[elementKey]] finds the
    member, the guard [if (element)] passes, and the patch stores an
    element made from nothing but the patch: the returned tree has an
    entry that the input tree has not. *)
Theorem applyPatch_field_patch_missing_element (tree : UITree) (o : string)
    (dataPath value : JValue) :
  mutating_op o →
  (∀ p : string,
     startsWith p elements_prefix = true →
     1 < length (pathParts_of p) →
     elements tree !! hd "" (pathParts_of p) = None →
     inherited (hd "" (pathParts_of p)) = false →
     Utils.applyPatch tree (mkPatch (JStr o) (JStr p) dataPath value)
     = Normal tree)
  ∧ (∀ x : string,
       split "/" x = [x] →
       elements tree !! x = None →
       inherited x = false →
       Utils.applyPatch tree
         (mkPatch (JStr o) (JStr (elements_prefix +:+ x +:+ "/props/title"))
            dataPath value)
       = Normal tree)
  ∧ (∀ x : string,
       split "/" x = [x] →
       elements tree !! x = None →
       inherited x = true →
       x ≠ "__proto__" →
       Utils.applyPatch tree
         (mkPatch (JStr o) (JStr (elements_prefix +:+ x +:+ "/props/title"))
            dataPath value)
       = Normal (mkTree (root tree)
                   (<[x := JObj {[ "props" := JObj {[ "title" := value ]} ]}]>
                      (elements tree)))).
Proof.
  intros Hop.
  assert (∀ p : string,
     startsWith p elements_prefix = true →
     1 < length (pathParts_of p) →
     elements tree !! hd "" (pathParts_of p) = None →
     Utils.applyPatch tree (mkPatch (JStr o) (JStr p) dataPath value)
     = if inherited (hd "" (pathParts_of p))
       then newElement' ← Core.setByPath (JObj ∅)
                            ("/" +:+ join "/" (tail (pathParts_of p))) value;
            Normal (mkTree (root tree)
                      (store (hd "" (pathParts_of p)) newElement' (elements tree)))
       else Normal tree) as Hgen.
  { intros p Hprefix Hlen Hmissing.
    unfold Utils.applyPatch, applyPatch_switch. cbn [path op Tree.value].
    rewrite (mutating_op_test o Hop).
    destruct p as [|c p]; [done |].
    cbn [truthy String.eqb negb string_receiver].
    destruct (is_string (JStr (String c p)) "/root") eqn:Hroot.
    { apply String.eqb_eq in Hroot. by rewrite Hroot in Hprefix. }
    change (Normal (String c p) ≫= ?k) with (k (String c p)). cbn beta.
    rewrite Hprefix.
    cbn [root elements]. unfold element_copy. rewrite Hmissing, tree_eta.
    destruct (length (pathParts_of (String c p)) =? 1)%nat eqn:Hone.
    { apply Nat.eqb_eq in Hone. lia. }
    destruct (hd "" (pathParts_of (String c p))) as [|c' k'] eqn:Hkey.
    - by change (inherited "") with false.
    - change (String.eqb (String c' k') "") with false. cbn [negb].
      by destruct (inherited (String c' k')). }
  assert (∀ x : string,
            split "/" x = [x] →
            pathParts_of (elements_prefix +:+ x +:+ "/props/title")
            = [x; "props"; "title"]) as Hparts.
  { intros x Hx. rewrite pathParts_of_key.
    change "/props/title" with (String "/" "props/title").
    by rewrite split_app_sep, Hx. }
  split; [| split].
  - intros p Hprefix Hlen Hmissing Hown.
    by rewrite (Hgen p Hprefix Hlen Hmissing), Hown.
  - intros x Hx Hmissing Hown.
    rewrite Hgen; rewrite ?(Hparts x Hx); cbn [hd length];
      [by rewrite Hown | reflexivity | lia | done].
  - intros x Hx Hmissing Hinh Hproto.
    rewrite Hgen; rewrite ?(Hparts x Hx); cbn [hd length tail];
      [| reflexivity | lia | done].
    rewrite Hinh.
    assert (Core.setByPath (JObj ∅) ("/" +:+ join "/" ["props"; "title"]) value
            = Normal (JObj {[ "props" := JObj {[ "title" := value ]} ]})) as ->.
    { vm_compute. reflexivity. }
    change (Normal ?t ≫= ?f) with (f t). cbn beta.
    unfold store, reaches_proto.
    destruct (String.eqb_spec x "__proto__") as [-> | _]; done.
Qed.

(** A whole-element patch stores its value under the key, unless the key
    is empty. *)
Lemma applyPatch_whole_element (tree : UITree) (o k : string)
    (dataPath value : JValue) :
  mutating_op o →
  split "/" k = [k] →
  Utils.applyPatch tree (mkPatch (JStr o) (JStr (elements_prefix +:+ k)) dataPath value)
  = Normal (if String.eqb k "" then tree
            else mkTree (root tree) (store k value (elements tree))).
Proof.
  intros Hop Hk.
  unfold Utils.applyPatch, applyPatch_switch. cbn [path op Tree.value].
  rewrite (mutating_op_test o Hop), elements_path_not_root.
  change (truthy (JStr (elements_prefix +:+ k))) with true.
  cbn [negb string_receiver].
  change (Normal (elements_prefix +:+ k) ≫= ?f) with (f (elements_prefix +:+ k)).
  cbn beta. rewrite startsWith_elements, pathParts_of_key, Hk.
  cbn [hd length Nat.eqb truthy root elements].
  destruct (String.eqb k ""); cbn [negb]; [by rewrite tree_eta | done].
Qed.



Lemma store_own (k : string) (v : JValue) (els : gmap string JValue) :
  is_Some (els !! k) → store k v els = <[k := v]> els.
Proof.
  intros [x Hx]. unfold store, reaches_proto.
  by rewrite Hx, bool_decide_eq_false_2, andb_false_r.
Qed.

Lemma store_cases (k : string) (v : JValue) (els : gmap string JValue) :
  (k = "__proto__" ∧ els !! k = None ∧ store k v els = els)
  ∨ store k v els = <[k := v]> els.
Proof.
  unfold store, reaches_proto.
  destruct (String.eqb_spec k "__proto__") as [-> | Hne]; [| by right].
  destruct (els !! "__proto__") as [x|] eqn:Hx.
  - right. by rewrite bool_decide_eq_false_2.
  - left. by rewrite bool_decide_eq_true_2.
Qed.

Lemma store_store (k : string) (v : JValue) (els : gmap string JValue) :
  store k v (store k v els) = store k v els.
Proof.
  destruct (store_cases k v els) as [(_ & _ & Hsame) | ->];
    [by rewrite !Hsame |].
  rewrite store_own by (rewrite lookup_insert_eq; eauto).
  by rewrite insert_insert_eq.
Qed.

Lemma delete_store (k : string) (v : JValue) (els : gmap string JValue) :
  els !! k = None → delete k (store k v els) = els.
Proof.
  intros Hnone.
  destruct (store_cases k v els) as [(_ & _ & ->) | ->].
  - by rewrite delete_id.
  - by rewrite delete_insert_id.
Qed.

Lemma store_lookup_ne (k k' : string) (v : JValue) (els : gmap string JValue) :
  k' ≠ k → store k v els !! k' = els !! k'.
Proof.
  intros Hne.
  destruct (store_cases k v els) as [(_ & _ & ->) | ->]; [done |].
  by rewrite lookup_insert_ne.
Qed.


(** C9.  A remove patch whose path is not under [/elements/] returns a
    tree equal to its input.  Whatever its path, a remove patch completes
    normally, leaves [root] as it is, and either leaves [elements] as it
    is or deletes the one entry whose key the path addresses. *)
Theorem applyPatch_remove (tree : UITree) (p : string) (dataPath value : JValue) :
  let patch := mkPatch (JStr "remove") (JStr p) dataPath value in
  (startsWith p elements_prefix = false →
   Utils.applyPatch tree patch = Normal tree)
  ∧ ∃ tree',
      Utils.applyPatch tree patch = Normal tree'
      ∧ root tree' = root tree
      ∧ (elements tree' = elements tree
         ∨ startsWith p elements_prefix = true
           ∧ elements tree' = delete (hd "" (pathParts_of p)) (elements tree)).
Proof.
  intros patch. subst patch.
  unfold Utils.applyPatch, applyPatch_switch. cbn [path op Tree.value].
  change (is_string (JStr "remove") "set" || is_string (JStr "remove") "add"
          || is_string (JStr "remove") "replace") with false.
  change (is_string (JStr "remove") "remove") with true.
  cbn [string_receiver].
  change (Normal p ≫= ?f) with (f p). cbn beta.
  destruct (negb (truthy (JStr p))).
  { split; [done |]. exists tree. by auto. }
  destruct (startsWith p elements_prefix) eqn:Hprefix.
  - split; [done |].
    destruct (truthy (JStr (hd "" (pathParts_of p)))); eexists;
      (split; [reflexivity |]); cbn [root elements]; by auto.
  - rewrite tree_eta. split; [done |]. exists tree. by auto.
Qed.

End Reducer.

(** ** Path addressing and dynamic values *)

Section PathAddressing.

(** C2 (the code departs from it).  With a [null] intermediate the walk
    of [setByPath] does not create a mapping: [typeof null] is "object", so
    the guard keeps the [null], and the next step throws a TypeError, both
    when the [null] is the parent of the last segment and when it is
    further up.  A string intermediate is overwritten by an empty mapping
    as the claim says, and [getByPath] on the same model and path answers
    [undefined] without throwing. *)
Theorem setByPath_null_intermediate_throws :
  Core.setByPath (js_object [("a", JNull)]) "/a/b" (JNum 1)
  = Throw (TypeError "Cannot set properties of a non-object")
  ∧ Core.setByPath (js_object [("a", JNull)]) "/a/b/c" (JNum 1)
    = Throw (TypeError "Cannot use 'in' operator to search for a key in a non-object")
  ∧ Core.setByPath (js_object [("a", JStr "x")]) "/a/b" (JNum 1)
    = Normal (js_object [("a", js_object [("b", JNum 1)])])
  ∧ Core.getByPath_string (js_object [("a", JNull)]) "/a/b" = JUndefined.
Proof. repeat split; vm_compute; reflexivity. Qed.

(** One step of the walk through a plain object: unless the walk enters
    the prototype, the child under the segment is kept when it has type
    object and replaced by an empty mapping otherwise, and the walk goes
    on inside it. *)
Lemma setByPath_walk_obj (segment segment' : string) (rest : list string)
    (m : gmap string JValue) (value : JValue) :
  Core.setByPath_walk (segment :: segment' :: rest) (JObj m) value
  = if reaches_proto m segment then Unmodelled
    else
      next' ← Core.setByPath_walk (segment' :: rest)
                (match m !! segment with
                 | Some old => if String.eqb (typeof old) "object" then old else JObj ∅
                 | None => JObj ∅
                 end) value;
      Normal (JObj (<[segment := next']> m)).
Proof.
  change (Core.setByPath_walk (segment :: segment' :: rest) (JObj m) value)
    with (if reaches_proto m segment then Unmodelled else
          present ← js_in segment (JObj m);
          current' ← (if negb present
                      || negb (String.eqb (typeof (prop (JObj m) segment)) "object")
                      then js_set (JObj m) segment (JObj ∅)
                      else Normal (JObj m));
          next' ← Core.setByPath_walk (segment' :: rest) (prop current' segment) value;
          Normal (aliased current' segment next')).
  destruct (reaches_proto m segment) eqn:Hproto; [done |].
  unfold js_in. change (Normal ?b ≫= ?f) with (f b). cbn beta.
  assert (prop (JObj m) segment
          = match m !! segment with Some old => old | None => JUndefined end)
    as -> by done.
  assert (∀ v, js_set (JObj m) segment v = Normal (JObj (<[segment := v]> m)))
    as Hset.
  { intros v. cbn [js_set]. by rewrite Hproto. }
  assert ((Normal (JObj (<[segment := JObj ∅]> m)) ≫= fun current' =>
             next' ← Core.setByPath_walk (segment' :: rest) (prop current' segment) value;
             Normal (aliased current' segment next'))
          = next' ← Core.setByPath_walk (segment' :: rest) (JObj ∅) value;
            Normal (JObj (<[segment := next']> m))) as Hfresh.
  { change (Normal ?b ≫= ?f) with (f b). cbn beta.
    assert (prop (JObj (<[segment := JObj ∅]> m)) segment = JObj ∅) as ->.
    { unfold prop, js_get. by rewrite lookup_insert_eq. }
    destruct (Core.setByPath_walk (segment' :: rest) (JObj ∅) value); try done.
    change (Normal ?b ≫= ?f) with (f b). cbn beta. cbn [aliased].
    by rewrite insert_insert_eq. }
  destruct (m !! segment) as [old|] eqn:Hold.
  - rewrite bool_decide_eq_true_2 by eauto. cbn [negb orb].
    destruct (String.eqb (typeof old) "object") eqn:Htype; cbn [negb].
    + change (Normal ?b ≫= ?f) with (f b). cbn beta.
      assert (prop (JObj m) segment = old) as ->.
      { unfold prop, js_get. by rewrite Hold. }
      destruct (Core.setByPath_walk (segment' :: rest) old value); done.
    + rewrite Hset. apply Hfresh.
  - cbn [typeof]. change (String.eqb "undefined" "object") with false.
    rewrite orb_true_r, Hset. apply Hfresh.
Qed.

Lemma reaches_proto_other (m : gmap string JValue) (k : string) :
  k ≠ "__proto__" → reaches_proto m k = false.
Proof. intros Hk. unfold reaches_proto. by destruct (String.eqb_spec k "__proto__"). Qed.

Lemma reaches_proto_own (m : gmap string JValue) (k : string) :
  is_Some (m !! k) → reaches_proto m k = false.
Proof.
  intros [v Hv]. unfold reaches_proto. rewrite Hv.
  by rewrite bool_decide_eq_false_2, andb_false_r.
Qed.

(** Where no [null] and no array stands at an intermediate segment and
    no segment is [__proto__], [setByPath] completes normally and
    [getByPath] reads the value back. *)
Lemma setByPath_walk_plain (segments : list string) (value : JValue) :
  ∀ current : JValue,
    segments ≠ [] →
    "__proto__" ∉ segments →
    Core.plain_along segments current →
    ∃ current',
      Core.setByPath_walk segments current value = Normal current'
      ∧ Core.getByPath_loop segments current' = value.
Proof.
  induction segments as [|segment rest IH]; intros current Hne Hproto Hplain;
    [done |].
  apply not_elem_of_cons in Hproto as [Hsegment Hproto].
  destruct current as [| | | | |m|]; try done.
  destruct rest as [|segment' rest'].
  - exists (JObj (<[segment := value]> m)). split.
    + cbn [Core.setByPath_walk js_set]. by rewrite reaches_proto_other.
    + cbn [Core.getByPath_loop typeof].
      change (String.eqb "object" "object") with true.
      unfold prop, js_get. cbn iota. by rewrite lookup_insert_eq.
  - rewrite setByPath_walk_obj, reaches_proto_other by done.
    change (Core.plain_along (segment :: segment' :: rest') (JObj m))
      with (match m !! segment with
            | Some (JObj m') => Core.plain_along (segment' :: rest') (JObj m')
            | Some JNull | Some (JArr _ _) => False
            | _ => True
            end) in Hplain.
    assert (Core.plain_along (segment' :: rest') (JObj ∅)) as Hempty.
    { cbn. by destruct rest'. }
    assert (Core.plain_along (segment' :: rest')
              (match m !! segment with
               | Some old => if String.eqb (typeof old) "object" then old else JObj ∅
               | None => JObj ∅
               end)) as Hchild.
    { destruct (m !! segment) as [[| | | | |m'|]|]; done. }
    destruct (IH _ ltac:(done) Hproto Hchild) as (next' & Hwalk & Hget).
    rewrite Hwalk. eexists. split; [reflexivity |].
    cbn [Core.getByPath_loop typeof]. change (String.eqb "object" "object") with true.
    cbn iota. unfold prop, js_get. by rewrite lookup_insert_eq.
Qed.

(** A [null] at an intermediate segment of a plain object makes the walk
    throw, whatever follows. *)
Lemma setByPath_walk_null (segment : string) (rest : list string)
    (m : gmap string JValue) (value : JValue) :
  m !! segment = Some JNull →
  rest ≠ [] →
  ∃ e, Core.setByPath_walk (segment :: rest) (JObj m) value = Throw e.
Proof.
  intros Hnull Hrest. destruct rest as [|segment' rest']; [done |].
  rewrite setByPath_walk_obj, reaches_proto_own, Hnull by eauto. cbn [typeof].
  change (String.eqb "object" "object") with true. cbn iota.
  destruct rest' as [|segment'' rest'']; eexists; reflexivity.
Qed.

(** The same defect seen from the data context and from the reducer. *)
Lemma set_below_null_throws :
  Data.set "/user/name" (JStr "Alice") (js_object [("user", JNull)])
  = Throw (TypeError "Cannot set properties of a non-object")
  ∧ Utils.applyPatch
      (mkTree (JStr "a") {[ "a" := js_object [("props", JNull)] ]})
      (mkPatch (JStr "set") (JStr "/elements/a/props/title") JUndefined (JStr "T"))
    = Throw (TypeError "Cannot set properties of a non-object").
Proof. split; vm_compute; reflexivity. Qed.

Lemma resolveDynamicValue_path_object (dataModel : JValue)
    (m : gmap string JValue) (p : string) :
  m !! "path" = Some (JStr p) →
  Core.resolveDynamicValue (JObj m) dataModel
  = Normal (Core.getByPath_string dataModel p).
Proof.
  intros Hp. unfold Core.resolveDynamicValue.
  change (String.eqb (typeof (JObj m)) "object") with true. cbn iota.
  unfold js_in. rewrite Hp.
  rewrite bool_decide_eq_true_2 by eauto.
  change (Normal true ≫= ?f) with (f true). cbn beta iota.
  unfold prop, js_get. by rewrite Hp.
Qed.

(** C10.  A value of type object, not [null], that has a [path] property
    is resolved as a reference: the result is [getByPath(dataModel,
    value.path)], whatever else the object holds, so a literal object with
    a [path] key never passes through as a literal.  [null] and
    [undefined] resolve to [undefined]. *)
Theorem resolveDynamicValue_reference (dataModel : JValue) :
  (∀ value : JValue,
     typeof value = "object" →
     value ≠ JNull →
     js_in "path" value = Normal true →
     Core.resolveDynamicValue value dataModel
     = Core.getByPath dataModel (prop value "path"))
  ∧ (∀ (m : gmap string JValue) (p : string),
       m !! "path" = Some (JStr p) →
       Core.resolveDynamicValue (JObj m) dataModel
       = Normal (Core.getByPath_string dataModel p))
  ∧ Core.resolveDynamicValue JNull dataModel = Normal JUndefined
  ∧ Core.resolveDynamicValue JUndefined dataModel = Normal JUndefined.
Proof.
  split; [| split; [| done]].
  - intros value Htype Hnull Hin.
    destruct value; try done; unfold Core.resolveDynamicValue;
      cbn [typeof String.eqb Ascii.eqb Bool.eqb];
      change (String.eqb "object" "object") with true; cbn iota;
      by rewrite Hin.
  - intros m p Hp. by apply resolveDynamicValue_path_object.
Qed.

End PathAddressing.

(** ** The validation context *)

Section ValidationProps.
Context `{Validation.ValidationDeps}.
Import Validation.

Lemma validate_result (dataModel : JValue) (path : string)
    (config : ValidationConfig) (st : ProviderState) :
  validate dataModel path config st
  = (field_result dataModel path config,
     mkProvider (<[path := validated_state dataModel st path config]> (fieldStates st))
       (fieldConfigs st)).
Proof. reflexivity. Qed.

Lemma validateAll_over_flag (dataModel : JValue)
    (entries : list (string * ValidationConfig)) :
  ∀ (b : bool) (st : ProviderState),
    (foldl (validateAll_step dataModel) (b, st) entries).1
    = b && forallb (fun e => valid (field_result dataModel e.1 e.2)) entries.
Proof.
  induction entries as [|[p c] entries IH]; intros b st.
  - cbn. by rewrite andb_true_r.
  - cbn [foldl forallb]. unfold validateAll_step at 2.
    rewrite validate_result. cbn [fst snd]. rewrite IH.
    destruct (valid (field_result dataModel p c)), b; done.
Qed.

Lemma validateAll_over_other (dataModel : JValue)
    (entries : list (string * ValidationConfig)) (path : string) :
  ∀ (b : bool) (st : ProviderState),
    path ∉ entries.*1 →
    fieldStates (foldl (validateAll_step dataModel) (b, st) entries).2 !! path
    = fieldStates st !! path.
Proof.
  induction entries as [|[p c] entries IH]; intros b st Hnotin; [done |].
  cbn [foldl]. unfold validateAll_step at 2. rewrite validate_result.
  cbn [fst snd]. cbn in Hnotin. apply not_elem_of_cons in Hnotin as [Hne Hnotin].
  rewrite IH by done. cbn [fieldStates]. by rewrite lookup_insert_ne.
Qed.

Lemma validateAll_over_field (dataModel : JValue)
    (entries : list (string * ValidationConfig)) (path : string)
    (config : ValidationConfig) :
  ∀ (b : bool) (st : ProviderState),
    NoDup entries.*1 →
    (path, config) ∈ entries →
    fieldStates (foldl (validateAll_step dataModel) (b, st) entries).2 !! path
    = Some (validated_state dataModel st path config).
Proof.
  induction entries as [|[p c] entries IH]; intros b st Hnodup Hin.
  - by apply elem_of_nil in Hin.
  - cbn in Hnodup. apply NoDup_cons in Hnodup as [Hfresh Hnodup].
    cbn [foldl]. unfold validateAll_step at 2. rewrite validate_result.
    cbn [fst snd]. apply elem_of_cons in Hin as [[= -> ->] | Hin].
    + rewrite validateAll_over_other by done. cbn [fieldStates].
      by rewrite lookup_insert_eq.
    + assert (path ≠ p) as Hne.
      { intros ->. apply Hfresh. apply list_elem_of_fmap. by exists (p, config). }
      rewrite IH by done. unfold validated_state. cbn [fieldStates].
      by rewrite lookup_insert_ne.
Qed.

(** C8.  [validateAll] returns true exactly when the validation result of
    every registered field is valid, and it validates every registered
    field, failing or not: afterwards each registered path carries the
    state [validate] records for it (validated, with the result of its
    own configuration), and the state of every other path is untouched. *)
Theorem validateAll_every_field (dataModel : JValue) (st : ProviderState) :
  ((validateAll dataModel st).1 = true
   ↔ ∀ path config,
       fieldConfigs st !! path = Some config →
       valid (field_result dataModel path config) = true)
  ∧ (∀ path config,
       fieldConfigs st !! path = Some config →
       fieldStates (validateAll dataModel st).2 !! path
       = Some (validated_state dataModel st path config))
  ∧ (∀ path,
       fieldConfigs st !! path = None →
       fieldStates (validateAll dataModel st).2 !! path = fieldStates st !! path).
Proof.
  unfold validateAll, validateAll_over. split; [| split].
  - rewrite validateAll_over_flag. cbn [andb]. rewrite forallb_forall. split.
    + intros Hall path config Hreg.
      apply (Hall (path, config)), list_elem_of_In. by apply elem_of_map_to_list.
    + intros Hall [path config] Hin. apply list_elem_of_In, elem_of_map_to_list in Hin.
      by apply Hall.
  - intros path config Hreg. apply validateAll_over_field.
    + apply NoDup_fst_map_to_list.
    + by apply elem_of_map_to_list.
  - intros path Hnone. apply validateAll_over_other.
    intros Hin. apply list_elem_of_fmap in Hin as ([p c] & -> & Hin).
    apply elem_of_map_to_list in Hin. cbn in Hnone. congruence.
Qed.

End ValidationProps.

(** ** The action context *)

Section ActionProps.
Import Actions Scenario.

Lemma resolve_refund (dataModel : JValue) :
  Core.getByPath_string dataModel "/refund/amount" = JNum 50 →
  resolveAction refund_action dataModel = Normal refund_resolved.
Proof.
  intros Hamount. unfold resolveAction, refund_action, resolveParams.
  cbn [a_params default a_name a_confirm a_onSuccess a_onError]. unfold id.
  rewrite map_to_list_singleton. cbn [foldr fst snd].
  change (Normal ∅ ≫= ?f) with (f (∅ : gmap string JValue)). cbn beta.
  unfold js_object.
  rewrite (resolveDynamicValue_path_object dataModel _ "/refund/amount")
    by (vm_compute; reflexivity).
  rewrite Hamount. reflexivity.
Qed.

(** Running the refund action, which declares no mutation, calls the
    handler once with the resolved params and completes. *)
Lemma run_refund (h : ActionHandler) (id : nat) (st : ActionState) :
  ∃ st', run refund_resolved h id st = Normal st'
         ∧ handlerCalls st' = handlerCalls st ++ [("refund", refund_params)]
         ∧ pendingConfirmation st' = pendingConfirmation st.
Proof.
  unfold run, executeAction.
  cbn [r_name r_params r_onSuccess r_onError refund_resolved].
  destruct (h refund_params) as [result | e]; cbn [applyMutations];
    eexists; (split; [reflexivity |]); done.
Qed.

(** C6.  With a handler registered for "refund" and a data model whose
    [/refund/amount] is 50, dispatching the refund action suspends: the
    returned promise is pending, no handler has run, and the pending
    confirmation holds the action with params [{amount: 50}].  [cancel]
    rejects that promise with "Action cancelled", clears the pending
    record and calls no handler, and a later [confirm] then does nothing.
    [confirm] clears the pending record and calls the handler once with
    [{amount: 50}], whatever the data model has become since dispatch. *)
Theorem refund_confirmation (st : ActionState) (h : ActionHandler) :
  handlers st !! "refund" = Some h →
  Core.getByPath_string (data st) "/refund/amount" = JNum 50 →
  let id := length (promises st) in
  ∃ st1,
    execute refund_action st = Normal (id, st1)
    ∧ pendingConfirmation st1 = Some (mkPending refund_resolved h id)
    ∧ promises st1 !! id = Some Pending
    ∧ handlerCalls st1 = handlerCalls st
    ∧ promises (cancel st1) !! id
      = Some (Rejected (new_Error (JStr "Action cancelled")))
    ∧ pendingConfirmation (cancel st1) = None
    ∧ handlerCalls (cancel st1) = handlerCalls st
    ∧ confirm (cancel st1) = Normal (cancel st1)
    ∧ ∀ d, ∃ st2,
        confirm (setData d st1) = Normal st2
        ∧ pendingConfirmation st2 = None
        ∧ handlerCalls st2 = handlerCalls st ++ [("refund", refund_params)].
Proof.
  intros Hh Hamount id. eexists. split.
  { unfold execute. cbn [data setPromises]. rewrite (resolve_refund _ Hamount).
    cbn [r_name refund_resolved handlers setPromises]. rewrite Hh.
    change (truthy (r_confirm _)) with true. cbn iota. reflexivity. }
  cbn [setPendingConfirmation setPromises pendingConfirmation promises
       handlerCalls data handlers loadingActions warnings cancel settle
       pc_promise confirm setData].
  repeat split.
  - by rewrite lookup_app_r, Nat.sub_diag.
  - rewrite list_lookup_insert_eq; [done |]. rewrite length_app. cbn. lia.
  - intros d.
    destruct (run_refund h id
                (setPendingConfirmation None
                   (setData d
                      (setPendingConfirmation (Some (mkPending refund_resolved h id))
                         (setPromises (promises st ++ [Pending]) st)))))
      as (st2 & Hrun & Hcalls & Hpending).
    exists st2. by repeat split.
Qed.

End ActionProps.

(** ** The claims on the example data *)

Section Witnesses.
Import Scenario Hooks.

(** The end-to-end scenario of the specification: the three patch lines,
    split inside a line, build the tree with root [a] and elements [a]
    and [b]. *)
Example scenario_builds_tree :
  send None (Response true 200 None (Some (scenario_chunks, Done))) idle
  = Normal (mkHook (Some tree_ab) false None [] [tree_ab]).
Proof. vm_compute. reflexivity. Qed.

(** C1, as stated, fails: a hook that shows a tree and whose next [send]
    meets an HTTP 500 ends with the empty tree, not with the tree it
    showed. *)
Lemma send_failure_keeps_tree_counterexample :
  ¬ (∀ (P : JsonParser) (previousTree : option UITree) (transport : Transport)
       (st : HookState) (e : JsError),
       transport_failure transport = Some e →
       err_name e ≠ "AbortError" →
       ∃ st', send previousTree transport st = Normal st'
              ∧ error st' = Some e
              ∧ onErrorCalls st' = onErrorCalls st ++ [e]
              ∧ isStreaming st' = false
              ∧ tree st' = tree st).
Proof.
  intros Hclaim.
  destruct (Hclaim ScenarioParser.parser None http_500 showing_ab http_500_error)
    as (st' & Hsend & _ & _ & _ & Htree); [reflexivity | by vm_compute |].
  vm_compute in Hsend. injection Hsend as <-.
  vm_compute in Htree. discriminate Htree.
Qed.

Lemma send_transport_failure_witness :
  send None http_500 showing_ab
  = Normal (mkHook (Some emptyTree) false (Some http_500_error)
              [http_500_error] []).
Proof.
  apply (proj1 (send_transport_failure None showing_ab http_500_error
                  ltac:(by vm_compute)) http_500).
  reflexivity.
Defined.

Lemma parsePatchLine_skip_or_parse_witness :
  Utils.parsePatchLine "  // a comment " = JNull
  ∧ Utils.parsePatchLine (" " +:+ line_root +:+ " ")
    = patch_value "set" "/root" (JStr "a").
Proof.
  split.
  - apply (proj1 (parsePatchLine_skip_or_parse "  // a comment ")).
    right; left. vm_compute. reflexivity.
  - apply (proj2 (parsePatchLine_skip_or_parse (" " +:+ line_root +:+ " "))).
    vm_compute. reflexivity.
Defined.

Lemma applyPatch_field_patch_missing_element_witness :
  Utils.applyPatch tree_ab
    (mkPatch (JStr "replace") (JStr "/elements/x/props/title") JUndefined (JStr "T"))
  = Normal tree_ab
  ∧ Utils.applyPatch tree_ab
      (mkPatch (JStr "replace") (JStr "/elements/constructor/props/title")
         JUndefined (JStr "T"))
    = Normal (mkTree (root tree_ab)
                (<["constructor" := JObj {[ "props" := JObj {[ "title" := JStr "T" ]} ]}]>
                   (elements tree_ab))).
Proof.
  destruct (applyPatch_field_patch_missing_element tree_ab "replace"
              JUndefined (JStr "T") ltac:(right; right; reflexivity))
    as (_ & Hown & Hinherited).
  split.
  - apply (Hown "x"); [reflexivity | vm_compute; reflexivity | vm_compute; reflexivity].
  - apply (Hinherited "constructor");
      [reflexivity | vm_compute; reflexivity | vm_compute; reflexivity | discriminate].
Defined.


Lemma applyPatch_remove_witness :
  Utils.applyPatch tree_ab (mkPatch (JStr "remove") (JStr "/root") JUndefined JUndefined)
  = Normal tree_ab.
Proof.
  apply (proj1 (applyPatch_remove tree_ab "/root" JUndefined JUndefined)).
  reflexivity.
Defined.

Lemma validateAll_every_field_witness :
  (Validation.validateAll form_data form_state).1 ≠ true
  ∧ Validation.fieldStates (Validation.validateAll form_data form_state).2 !! "/name"
    = Some (Validation.mkField true true (Some (Validation.mkResult true []))).
Proof.
  destruct (validateAll_every_field form_data form_state) as (Hflag & Hfield & _).
  split.
  - intros Htrue. pose proof (proj1 Hflag Htrue "/email" [Required; MinLength 8]
                                ltac:(vm_compute; reflexivity)) as Hvalid.
    vm_compute in Hvalid. discriminate Hvalid.
  - apply (Hfield "/name" [Required]). vm_compute. reflexivity.
Defined.

Lemma resolveDynamicValue_reference_witness :
  Core.resolveDynamicValue
    (js_object [("path", JStr "/refund/amount"); ("label", JStr "kept?")])
    refund_data
  = Normal (JNum 50).
Proof.
  apply (proj1 (proj2 (resolveDynamicValue_reference refund_data))
           _ "/refund/amount").
  vm_compute. reflexivity.
Defined.

Lemma refund_confirmation_witness :
  ∃ st1,
    Actions.execute refund_action refund_state = Normal (0, st1)
    ∧ Actions.pendingConfirmation st1
      = Some (Actions.mkPending refund_resolved refund_handler 0)
    ∧ Actions.handlerCalls (Actions.cancel st1) = []
    ∧ ∃ st2, Actions.confirm st1 = Normal st2
             ∧ Actions.handlerCalls st2 = [("refund", refund_params)].
Proof.
  destruct (refund_confirmation refund_state refund_handler)
    as (st1 & Hexec & Hpending & _ & _ & _ & _ & Hcancel & _ & Hconfirm).
  - vm_compute. reflexivity.
  - vm_compute. reflexivity.
  - exists st1. repeat split; [exact Hexec | exact Hpending | exact Hcancel |].
    destruct (Hconfirm (Actions.data st1)) as (st2 & Hrun & _ & Hcalls).
    exists st2. split; [| exact Hcalls].
    by destruct st1.
Defined.

End Witnesses.

(** * Further properties of the modelled code *)

(** ** Path addressing *)

Section PathFacts.

Lemma getByPath_loop_app (s1 s2 : list string) :
  ∀ obj : JValue,
    Core.getByPath_loop (s1 ++ s2) obj
    = Core.getByPath_loop s2 (Core.getByPath_loop s1 obj).
Proof.
  induction s1 as [|segment s1 IH]; intros obj; [done |].
  cbn [app Core.getByPath_loop].
  assert (Core.getByPath_loop s2 JUndefined = JUndefined) as Hundef.
  { by destruct s2. }
  destruct obj; try done; cbn [typeof];
    try (change (String.eqb _ "object") with false; cbn iota; by rewrite Hundef);
    change (String.eqb "object" "object") with true; cbn iota; apply IH.
Qed.

Lemma string_eqb_cons_slash (c : ascii) (p q : string) :
  String.eqb (String c p +:+ String "/" q) "/" = false.
Proof.
  rewrite append_cons. apply String.eqb_neq. intros [= _ Hrest].
  by destruct p.
Qed.

Lemma path_segments_plain (p : string) :
  startsWith p "/" = false → Core.path_segments p = split "/" p.
Proof. unfold Core.path_segments. by intros ->. Qed.

Lemma path_segments_slash (p : string) :
  Core.path_segments ("/" +:+ p) = split "/" p.
Proof. reflexivity. Qed.

Lemma getByPath_string_relative (obj : JValue) (p : string) :
  p ≠ "" → startsWith p "/" = false →
  Core.getByPath_string obj p = Core.getByPath_loop (split "/" p) obj.
Proof.
  intros Hne Hrel. unfold Core.getByPath_string.
  rewrite path_segments_plain by done.
  destruct p as [|c p]; [done |].
  change (truthy (JStr (String c p))) with true. cbn [negb orb].
  destruct (String.eqb_spec (String c p) "/") as [Heq | _]; [| done].
  by rewrite Heq in Hrel.
Qed.

(** X1.  The leading slash of a path is optional: for a path that is not
    empty and does not itself begin with a slash, [getByPath] and
    [setByPath] do the same with and without a slash put in front. *)
Theorem path_leading_slash_optional (obj value : JValue) (p : string) :
  p ≠ "" →
  startsWith p "/" = false →
  Core.getByPath_string obj ("/" +:+ p) = Core.getByPath_string obj p
  ∧ Core.setByPath obj ("/" +:+ p) value = Core.setByPath obj p value.
Proof.
  intros Hne Hrel. split.
  - rewrite (getByPath_string_relative obj p) by done.
    unfold Core.getByPath_string. rewrite path_segments_slash.
    destruct p as [|c p]; [done |]. reflexivity.
  - unfold Core.setByPath. by rewrite path_segments_slash, path_segments_plain.
Qed.

(** X2.  Paths compose: reading [p/q] is reading [q] in what [p] reads,
    for [p] other than the empty path and [/], and a [q] that is not empty
    and does not begin with a slash.  In particular, once [p] reads
    something that is not an object, every longer path reads [undefined]. *)
Theorem getByPath_compose (obj : JValue) (p q : string) :
  p ≠ "" → p ≠ "/" →
  q ≠ "" → startsWith q "/" = false →
  Core.getByPath_string obj (p +:+ "/" +:+ q)
  = Core.getByPath_string (Core.getByPath_string obj p) q.
Proof.
  intros Hp Hp' Hq Hrel.
  rewrite (getByPath_string_relative _ q) by done.
  destruct p as [|c p]; [done |].
  unfold Core.getByPath_string.
  change ("/" +:+ q) with (String "/" q).
  rewrite string_eqb_cons_slash.
  destruct (String.eqb_spec (String c p) "/") as [Heq | _]; [done |].
  rewrite append_cons. change (truthy (JStr (String c ?x))) with true.
  cbn [negb orb].
  rewrite <- getByPath_loop_app. f_equal.
  unfold Core.path_segments. cbn [startsWith].
  destruct (Ascii.eqb "/" c) eqn:Hc; cbn [andb slice].
  - by rewrite split_app_sep.
  - rewrite <- append_cons. by rewrite split_app_sep.
Qed.

(** X3.  Writing then reading: where no [null] and no array stands at an
    intermediate segment of the path in a plain object, no segment is
    [__proto__], and the path is neither empty nor [/], [setByPath]
    completes normally and [getByPath] with the same path reads the
    written value back. *)
Theorem setByPath_getByPath (obj value : JValue) (path : string) :
  path ≠ "" → path ≠ "/" →
  "__proto__" ∉ Core.path_segments path →
  Core.plain_along (Core.path_segments path) obj →
  ∃ obj',
    Core.setByPath obj path value = Normal obj'
    ∧ Core.getByPath_string obj' path = value.
Proof.
  intros Hne Hne' Hproto Hplain.
  assert (Core.path_segments path ≠ []) as Hsegs.
  { unfold Core.path_segments. destruct (startsWith path "/"); apply split_not_nil. }
  destruct (setByPath_walk_plain _ value obj Hsegs Hproto Hplain)
    as (obj' & Hset & Hget).
  exists obj'. split.
  - unfold Core.setByPath.
    destruct (Core.path_segments path) as [|s l]; [done |]. exact Hset.
  - unfold Core.getByPath_string.
    destruct path as [|c path]; [done |].
    change (truthy (JStr (String c path))) with true. cbn [negb orb].
    destruct (String.eqb_spec (String c path) "/") as [Heq | _]; done.
Qed.

(** X4.  With the empty path or [/], [setByPath] writes the property whose
    name is the empty string, while [getByPath] with these paths returns
    the whole object: for them the written value is not what is read. *)
Theorem setByPath_empty_path (m : gmap string JValue) (value : JValue) :
  Core.setByPath (JObj m) "" value = Normal (JObj (<["" := value]> m))
  ∧ Core.setByPath (JObj m) "/" value = Normal (JObj (<["" := value]> m))
  ∧ Core.getByPath_string (JObj (<["" := value]> m)) ""
    = JObj (<["" := value]> m)
  ∧ Core.getByPath_string (JObj (<["" := value]> m)) "/"
    = JObj (<["" := value]> m).
Proof. done. Qed.

(** The outcomes of an assignment to a plain object. *)
Lemma js_set_obj (m : gmap string JValue) (k : string) (v o' : JValue) :
  js_set (JObj m) k v = Normal o' →
  o' = JObj (if reaches_proto m k then m else <[k := v]> m).
Proof.
  cbn [js_set]. destruct (reaches_proto m k); [| by intros [= <-]].
  destruct v; cbn; by intros [= <-].
Qed.

(** X5.  When [setByPath] on a plain object completes, the object is a
    plain object still and every own top-level property other than the
    one named by the first segment of the path is as before; the one
    named by the first segment is present afterwards, except where the
    assignment went to the [__proto__] setter and was ignored. *)
Theorem setByPath_top_level_frame (m : gmap string JValue) (path : string)
    (value obj' : JValue) :
  Core.setByPath (JObj m) path value = Normal obj' →
  ∃ m',
    obj' = JObj m'
    ∧ (∀ k, k ≠ hd "" (Core.path_segments path) → m' !! k = m !! k)
    ∧ (reaches_proto m (hd "" (Core.path_segments path)) = false →
       is_Some (m' !! hd "" (Core.path_segments path))).
Proof.
  unfold Core.setByPath.
  pose proof (split_not_nil "/" path) as Hne1.
  pose proof (split_not_nil "/" (slice 1 path)) as Hne2.
  assert (Core.path_segments path ≠ []) as Hsegs.
  { unfold Core.path_segments. by destruct (startsWith path "/"). }
  destruct (Core.path_segments path) as [|segment rest]; [done |].
  cbn [length Nat.eqb hd]. intros Hset.
  assert (obj' = JObj m ∧ reaches_proto m segment = true
          ∨ ∃ x, obj' = JObj (<[segment := x]> m)) as [[-> Hproto] | [x ->]].
  { destruct rest as [|segment' rest'].
    - apply js_set_obj in Hset as ->.
      destruct (reaches_proto m segment); [by left | right; by eexists].
    - rewrite setByPath_walk_obj in Hset.
      destruct (reaches_proto m segment); [done |].
      destruct (Core.setByPath_walk (segment' :: rest') _ value) as [next| |];
        try done.
      injection Hset as <-. right. by eexists. }
  - exists m. split; [done |]. split; [done |]. by rewrite Hproto.
  - exists (<[segment := x]> m). split; [done |]. split.
    + intros k Hk. by rewrite lookup_insert_ne.
    + intros _. rewrite lookup_insert_eq. by eexists.
Qed.

(** X6.  A value that is not a reference is a literal: a primitive, and an
    object or array without a [path] property, resolves to itself,
    whatever the data model. *)
Theorem resolveDynamicValue_literal (value dataModel : JValue) :
  value ≠ JNull → value ≠ JUndefined →
  js_in "path" value ≠ Normal true →
  Core.resolveDynamicValue value dataModel = Normal value.
Proof.
  intros Hnull Hundef Hin. unfold Core.resolveDynamicValue.
  destruct value as [| |b|n|s|m|len m]; try done.
  - change (String.eqb (typeof (JObj m)) "object") with true. cbn iota.
    cbn [js_in] in *. destruct (bool_decide _); done.
  - change (String.eqb (typeof (JArr len m)) "object") with true. cbn iota.
    cbn [js_in] in *. destruct (_ || _); done.
Qed.

End PathFacts.

(** ** The tree reducer, further *)

Section ReducerFacts.

Lemma join_split (sep : ascii) (s : string) :
  join (String sep "") (split sep s) = s.
Proof.
  induction s as [|c s IH]; [done |].
  cbn [split]. pose proof (split_not_nil sep s) as Hne.
  destruct (Ascii.eqb_spec c sep) as [-> | Hc].
  - destruct (split sep s) as [|h t] eqn:Hs; [done |].
    change (join (String sep "") ("" :: h :: t))
      with ("" +:+ String sep "" +:+ join (String sep "") (h :: t)).
    by rewrite IH.
  - destruct (split sep s) as [|h t] eqn:Hs; [done |].
    destruct t as [|h' t'].
    + cbn [join] in *. by rewrite IH.
    + change (join (String sep "") (String c h :: h' :: t'))
        with (String c (h +:+ String sep "" +:+ join (String sep "") (h' :: t'))).
      by rewrite <- IH.
Qed.

Lemma prefixed_truthy (p : string) :
  startsWith p elements_prefix = true → truthy (JStr p) = true.
Proof. by destruct p. Qed.

Lemma prefixed_not_root (p : string) :
  startsWith p elements_prefix = true → is_string (JStr p) "/root" = false.
Proof.
  intros Hp. cbn [is_string]. apply String.eqb_neq. by intros ->.
Qed.

(** The remove case on a path under [/elements/] with a key. *)
Lemma applyPatch_remove_key (tree : UITree) (p : string) (dataPath value : JValue) :
  startsWith p elements_prefix = true →
  hd "" (pathParts_of p) ≠ "" →
  Utils.applyPatch tree (mkPatch (JStr "remove") (JStr p) dataPath value)
  = Normal (mkTree (root tree) (delete (hd "" (pathParts_of p)) (elements tree))).
Proof.
  intros Hp Hkey. unfold Utils.applyPatch, applyPatch_switch.
  cbn [path op Tree.value]. rewrite (prefixed_truthy p Hp). cbn [negb].
  change (is_string (JStr "remove") "set" || is_string (JStr "remove") "add"
          || is_string (JStr "remove") "replace") with false.
  change (is_string (JStr "remove") "remove") with true.
  cbn [string_receiver]. change (Normal p ≫= ?f) with (f p). cbn beta.
  rewrite Hp. cbn [truthy root elements].
  apply String.eqb_neq in Hkey. by rewrite Hkey.
Qed.

Lemma pathParts_of_key_sub (k rest : string) :
  split "/" k = [k] →
  pathParts_of (elements_prefix +:+ k +:+ String "/" rest) = k :: split "/" rest.
Proof.
  intros Hk.
  change (pathParts_of (elements_prefix +:+ k +:+ String "/" rest))
    with (split "/" (k +:+ String "/" rest)).
  by rewrite split_app_sep, Hk.
Qed.

(** X7.  A remove patch deletes the whole element its path addresses, also
    when the path goes on below the key: removing [/elements/k/...] does
    what removing [/elements/k] does, and the entry of [k] is gone. *)
Theorem applyPatch_remove_below_key (tree : UITree) (k rest : string)
    (dataPath value : JValue) :
  k ≠ "" →
  split "/" k = [k] →
  Utils.applyPatch tree
    (mkPatch (JStr "remove") (JStr (elements_prefix +:+ k +:+ String "/" rest))
       dataPath value)
  = Normal (mkTree (root tree) (delete k (elements tree)))
  ∧ Utils.applyPatch tree
      (mkPatch (JStr "remove") (JStr (elements_prefix +:+ k)) dataPath value)
    = Normal (mkTree (root tree) (delete k (elements tree))).
Proof.
  intros Hk Hsplit. split.
  - rewrite applyPatch_remove_key.
    + by rewrite pathParts_of_key_sub.
    + reflexivity.
    + by rewrite pathParts_of_key_sub.
  - rewrite applyPatch_remove_key.
    + by rewrite pathParts_of_key, Hsplit.
    + reflexivity.
    + by rewrite pathParts_of_key, Hsplit.
Qed.

(** X8.  Adding an element under a key the tree does not have and then
    removing it gives the tree back; removing a key the tree does not have
    changes nothing, so a second remove is a no-op. *)
Theorem applyPatch_add_then_remove (tree : UITree) (o k : string)
    (d1 d2 v1 v2 : JValue) :
  mutating_op o →
  k ≠ "" →
  split "/" k = [k] →
  elements tree !! k = None →
  (Utils.applyPatch tree (mkPatch (JStr o) (JStr (elements_prefix +:+ k)) d1 v1)
   ≫= fun t =>
     Utils.applyPatch t
       (mkPatch (JStr "remove") (JStr (elements_prefix +:+ k)) d2 v2))
  = Normal tree
  ∧ Utils.applyPatch tree
      (mkPatch (JStr "remove") (JStr (elements_prefix +:+ k)) d2 v2)
    = Normal tree.
Proof.
  intros Ho Hk Hsplit Habsent.
  assert (∀ t, Utils.applyPatch t
                 (mkPatch (JStr "remove") (JStr (elements_prefix +:+ k)) d2 v2)
               = Normal (mkTree (root t) (delete k (elements t)))) as Hremove.
  { intros t. rewrite applyPatch_remove_key.
    - by rewrite pathParts_of_key, Hsplit.
    - reflexivity.
    - by rewrite pathParts_of_key, Hsplit. }
  split.
  - rewrite applyPatch_whole_element by done.
    apply String.eqb_neq in Hk. rewrite Hk.
    change (Normal ?t ≫= ?f) with (f t). cbn beta.
    rewrite Hremove. cbn [root elements].
    rewrite delete_store by done. by rewrite tree_eta.
  - rewrite Hremove, delete_id by done. by rewrite tree_eta.
Qed.

(** X9.  What a patch with a string path leaves alone.  A patch whose
    path is not under [/elements/] leaves [elements] as it is; a patch
    under [/elements/] changes at most the entry whose key its path
    addresses; [root] changes only when the path is [/root].  The key
    [__proto__] is set aside: a store under it changes the prototype of
    [elements]. *)
Theorem applyPatch_frame (tree tree' : UITree) (o : JValue) (p : string)
    (dataPath value : JValue) :
  Utils.applyPatch tree (mkPatch o (JStr p) dataPath value) = Normal tree' →
  (startsWith p elements_prefix = true → hd "" (pathParts_of p) ≠ "__proto__") →
  (startsWith p elements_prefix = false → elements tree' = elements tree)
  ∧ (∀ k, k ≠ hd "" (pathParts_of p) → elements tree' !! k = elements tree !! k)
  ∧ (p ≠ "/root" → root tree' = root tree)
  ∧ (p = "/root" → elements tree' = elements tree).
Proof.
  unfold Utils.applyPatch, applyPatch_switch. cbn [path op Tree.value].
  cbn [string_receiver]. change (Normal p ≫= ?f) with (f p). cbn beta.
  intros Hrun _.
  assert (tree' = tree
          ∨ (p = "/root" ∧ tree' = mkTree value (elements tree))
          ∨ (startsWith p elements_prefix = true
             ∧ ∃ x, tree' = mkTree (root tree)
                              (store (hd "" (pathParts_of p)) x (elements tree)))
          ∨ (startsWith p elements_prefix = true
             ∧ tree' = mkTree (root tree)
                         (delete (hd "" (pathParts_of p)) (elements tree))))
    as Hcases.
  { cbn [root elements] in Hrun. rewrite !tree_eta in Hrun.
    destruct (negb (truthy (JStr p))); [left; congruence |].
    destruct (is_string o "set" || is_string o "add" || is_string o "replace").
    - destruct (is_string (JStr p) "/root") eqn:Hroot.
      + right; left. apply String.eqb_eq in Hroot. split; congruence.
      + destruct (startsWith p elements_prefix);
          [| left; congruence].
        destruct (negb (truthy (JStr (hd "" (pathParts_of p)))));
          [left; congruence |].
        destruct (length (pathParts_of p) =? 1)%nat.
        * right; right; left. split; [done |]. exists value. congruence.
        * destruct (element_copy (elements tree) (hd "" (pathParts_of p)))
            as [copy|]; [| left; congruence].
          destruct (Core.setByPath _ _ value) as [el| |]; try done.
          right; right; left. split; [done |]. exists el.
          change (Normal el ≫= ?f) with (f el) in Hrun. cbn beta in Hrun.
          congruence.
    - destruct (is_string o "remove"); [| left; congruence].
      destruct (startsWith p elements_prefix) eqn:Hp; [| left; congruence].
      destruct (truthy (JStr (hd "" (pathParts_of p)))); [| left; congruence].
      right; right; right. split; congruence. }
  destruct Hcases as [-> | [[-> ->] | [[Hp [x ->]] | [Hp ->]]]]; cbn [root elements].
  - done.
  - done.
  - repeat split; try (by intros ->); try congruence.
    intros k Hk. by apply store_lookup_ne.
  - repeat split; try (by intros ->); try congruence.
    intros k Hk. by rewrite lookup_delete_ne.
Qed.

(** X10.  A field patch on an element that is present: where the element
    is a plain object, no [null] and no array stands at an intermediate
    segment of the field path and no segment of it is [__proto__], the
    patch replaces the entry by a copy in which [getByPath] reads the
    patch value at that field path; [root] and the other entries stay
    (see X9). *)
Theorem applyPatch_field_patch_reads_back (tree : UITree) (o k sub : string)
    (dataPath value : JValue) (m : gmap string JValue) :
  mutating_op o →
  k ≠ "" →
  split "/" k = [k] →
  sub ≠ "" →
  "__proto__" ∉ split "/" sub →
  elements tree !! k = Some (JObj m) →
  Core.plain_along (split "/" sub) (JObj m) →
  ∃ element',
    Utils.applyPatch tree
      (mkPatch (JStr o) (JStr (elements_prefix +:+ k +:+ String "/" sub))
         dataPath value)
    = Normal (mkTree (root tree) (<[k := element']> (elements tree)))
    ∧ Core.getByPath_string element' ("/" +:+ sub) = value.
Proof.
  intros Ho Hk Hsplit Hsub Hproto Helement Hplain.
  destruct (setByPath_walk_plain (split "/" sub) value (JObj m)
              (split_not_nil "/" sub) Hproto Hplain) as (element' & Hset & Hget).
  exists element'. split.
  - unfold Utils.applyPatch, applyPatch_switch. cbn [path op Tree.value].
    rewrite (mutating_op_test o Ho).
    rewrite prefixed_truthy, prefixed_not_root by reflexivity.
    cbn [negb string_receiver].
    change (Normal ?x ≫= ?f) with (f x). cbn beta.
    change (startsWith (elements_prefix +:+ k +:+ String "/" sub) elements_prefix)
      with true. cbn iota.
    rewrite pathParts_of_key_sub by done.
    cbn [hd tail length root elements truthy].
    apply String.eqb_neq in Hk. rewrite Hk. cbn [negb].
    assert ((length (split "/" sub) =? 0)%nat = false) as Hlen.
    { apply Nat.eqb_neq. pose proof (split_not_nil "/" sub).
      by destruct (split "/" sub). }
    cbn [Nat.eqb]. rewrite Hlen. unfold element_copy. rewrite Helement.
    cbn [truthy spread]. rewrite join_split.
    unfold Core.setByPath. rewrite path_segments_slash, Hlen, Hset.
    change (Normal ?x ≫= ?f) with (f x). cbn beta.
    by rewrite store_own by eauto.
  - unfold Core.getByPath_string. rewrite path_segments_slash.
    destruct sub as [|c sub]; [done |]. exact Hget.
Qed.

(** X11.  Root patches, whole-element patches and remove patches are
    idempotent: applying the same patch to its own result changes nothing
    more. *)
Theorem applyPatch_idempotent (tree tree1 : UITree) (o : JValue) (p : string)
    (dataPath value : JValue) :
  o = JStr "remove" ∨ startsWith p elements_prefix = false
  ∨ length (pathParts_of p) = 1 →
  Utils.applyPatch tree (mkPatch o (JStr p) dataPath value) = Normal tree1 →
  Utils.applyPatch tree1 (mkPatch o (JStr p) dataPath value) = Normal tree1.
Proof.
  intros Hkind. unfold Utils.applyPatch, applyPatch_switch.
  cbn [path op Tree.value string_receiver root elements].
  change (Normal p ≫= ?f) with (f p). cbn beta. rewrite !tree_eta.
  destruct (negb (truthy (JStr p))); [by intros [= <-] |].
  destruct (is_string o "set" || is_string o "add" || is_string o "replace")
    eqn:Hmut.
  - destruct (is_string (JStr p) "/root"); [by intros [= <-] |].
    destruct (startsWith p elements_prefix) eqn:Hp; [| by intros [= <-]].
    destruct (negb (truthy (JStr (hd "" (pathParts_of p)))));
      [by intros [= <-] |].
    destruct (length (pathParts_of p) =? 1)%nat eqn:Hlen.
    + intros [= <-]. cbn [root elements]. by rewrite store_store.
    + apply Nat.eqb_neq in Hlen.
      destruct Hkind as [-> | [Hp' | Hone]]; [done | congruence | done].
  - destruct (is_string o "remove"); [| by intros [= <-]].
    destruct (startsWith p elements_prefix); [| by intros [= <-]].
    destruct (truthy (JStr (hd "" (pathParts_of p)))); [| by intros [= <-]].
    intros [= <-]. cbn [root elements]. by rewrite delete_delete_eq.
Qed.

(** With another root, a patch whose path is not [/root] does the same to
    [elements] and keeps that root. *)
Lemma applyPatch_other_root (r : JValue) (tree : UITree) (o : JValue) (p : string)
    (dataPath value : JValue) :
  p ≠ "/root" →
  Utils.applyPatch (mkTree r (elements tree)) (mkPatch o (JStr p) dataPath value)
  = match Utils.applyPatch tree (mkPatch o (JStr p) dataPath value) with
    | Normal t => Normal (mkTree r (elements t))
    | Throw e => Throw e
    | Unmodelled => Unmodelled
    end.
Proof.
  intros Hp. apply String.eqb_neq in Hp.
  unfold Utils.applyPatch, applyPatch_switch.
  cbn [path op Tree.value string_receiver root elements is_string].
  change (Normal p ≫= ?f) with (f p). cbn beta. rewrite Hp.
  repeat (match goal with
          | |- context [if ?b then _ else _] => destruct b
          end; try done).
  destruct (element_copy _ _); [| done].
  destruct (Core.setByPath _ _ value); done.
Qed.

(** X12.  A root patch commutes with every patch whose path is a string
    other than [/root] and does not address the key [__proto__]: in
    either order the outcome is the same, an exception of the other patch
    included. *)
Theorem applyPatch_root_commutes (tree : UITree) (o : string) (r d : JValue)
    (o' : JValue) (p : string) (d' v' : JValue) :
  mutating_op o →
  p ≠ "/root" →
  (startsWith p elements_prefix = true → hd "" (pathParts_of p) ≠ "__proto__") →
  let root_patch := mkPatch (JStr o) (JStr "/root") d r in
  let other := mkPatch o' (JStr p) d' v' in
  (Utils.applyPatch tree root_patch ≫= fun t => Utils.applyPatch t other)
  = (Utils.applyPatch tree other ≫= fun t => Utils.applyPatch t root_patch).
Proof.
  intros Ho Hp _ root_patch other. subst root_patch other.
  assert (∀ t, Utils.applyPatch t (mkPatch (JStr o) (JStr "/root") d r)
               = Normal (mkTree r (elements t))) as Hroot.
  { intros t. unfold Utils.applyPatch, applyPatch_switch.
    cbn [path op Tree.value]. by rewrite (mutating_op_test o Ho). }
  rewrite Hroot. change (Normal ?t ≫= ?f) with (f t). cbn beta.
  rewrite applyPatch_other_root by done.
  destruct (Utils.applyPatch tree _) as [t| |]; [| done | done].
  change (Normal ?t ≫= ?f) with (f t). cbn beta. by rewrite Hroot.
Qed.

End ReducerFacts.

(** ** The stream loop of hooks.ts, further *)

Section StreamFacts.
Context `{JsonParser}.
Import Hooks.

(** A line that is blank after trimming is passed over. *)
Lemma on_line_blank (line : string) (t : UITree) (st : HookState) :
  trim line = "" → on_line line t st = (Normal t, st).
Proof.
  intros Hblank. unfold on_line, parsePatchLine, Utils.parsePatchLine.
  by rewrite Hblank.
Qed.

Lemma chunks_text_app (c1 c2 : list string) :
  chunks_text (c1 ++ c2) = chunks_text c1 +:+ chunks_text c2.
Proof.
  induction c1 as [|c c1 IH]; [done |].
  cbn [app chunks_text foldr]. fold (chunks_text (c1 ++ c2)) (chunks_text c1).
  by rewrite IH, append_assoc.
Qed.

(** What the [try] block leaves in the hook state: the tree it committed
    last, and the call of [onComplete] with that tree when it completes. *)
Lemma send_try_state (transport : Transport) (t0 : UITree) (st0 : HookState) :
  tree st0 = Some t0 →
  ∃ t, match (send_try transport t0 st0).1 with
       | Normal _ => (send_try transport t0 st0).2 = onComplete t (setTree (Some t) st0)
       | _ => (send_try transport t0 st0).2 = setTree (Some t) st0
       end.
Proof.
  intros Ht0. unfold send_try.
  destruct transport as [e | ok status json body].
  { exists t0. cbn. by rewrite setTree_same. }
  destruct ok; cbn [negb]; [| exists t0; cbn; by rewrite setTree_same].
  destruct body as [[chunks fin] |]; [| exists t0; cbn; by rewrite setTree_same].
  rewrite hbind_unfold.
  destruct (read_loop_state chunks fin "" t0 st0 Ht0) as (t1 & Hst1 & Hr1).
  destruct (read_loop chunks fin "" t0 st0) as [[r| |] st1];
    cbn [fst snd] in *; [| by exists t1 | by exists t1].
  rewrite (Hr1 r eq_refl). subst st1. rewrite hbind_unfold.
  destruct (truthy (JStr (trim r.1))).
  - destruct (on_line_state r.1 t1 (setTree (Some t1) st0) eq_refl)
      as (t2 & Hst2 & Hr2).
    destruct (on_line r.1 t1 (setTree (Some t1) st0)) as [[r2| |] st2];
      cbn [fst snd] in *; subst st2; rewrite setTree_setTree.
    + rewrite (Hr2 r2 eq_refl). by exists t2.
    + by exists t2.
    + by exists t2.
  - exists t1. reflexivity.
Qed.

(** X13.  The outcome of [send] is fixed by how its [try] block ends.
    When the block completes, [onComplete] has been called once, with the
    very tree the tree value holds, and the error value is null.  When
    the block throws an AbortError, neither callback is called and the
    error value is null.  When it throws any other error, that error is
    the error value and [onError] has been called once with it, and
    [onComplete] not at all.  In each case [isStreaming] is false, the
    tree value holds the tree committed last, and earlier callback calls
    are untouched. *)
Theorem send_outcome (previousTree : option UITree) (transport : Transport)
    (st : HookState) :
  let started :=
    setTree (Some (startTree previousTree))
      (setError None (setIsStreaming true st)) in
  ∃ t,
    tree (send_try transport (startTree previousTree) started).2 = Some t
    ∧ send previousTree transport st
      = match (send_try transport (startTree previousTree) started).1 with
        | Normal _ =>
            Normal (mkHook (Some t) false None (onErrorCalls st)
                      (onCompleteCalls st ++ [t]))
        | Throw e =>
            if String.eqb (err_name e) "AbortError"
            then Normal (mkHook (Some t) false None (onErrorCalls st)
                           (onCompleteCalls st))
            else Normal (mkHook (Some t) false (Some e) (onErrorCalls st ++ [e])
                           (onCompleteCalls st))
        | Unmodelled => Unmodelled
        end.
Proof.
  intros started. subst started. unfold send.
  destruct (send_try_state transport (startTree previousTree)
              (setTree (Some (startTree previousTree))
                 (setError None (setIsStreaming true st))) eq_refl)
    as (t & Hstate).
  exists t.
  destruct (send_try transport _ _) as [[u | e |] st1]; cbn [fst snd] in *;
    subst st1; [done | | done].
  split; [done |]. by destruct (String.eqb (err_name e) "AbortError").
Qed.

(** X14.  A newline after the last line is optional: a chunk sequence and
    the same sequence followed by a chunk that is a single newline end in
    the same state. *)
Theorem send_trailing_newline (previousTree : option UITree) (status : N)
    (json : option JValue) (chunks : list string) (st : HookState) :
  send previousTree
    (Response true status json (Some (chunks ++ [String newline ""], Done))) st
  = send previousTree (Response true status json (Some (chunks, Done))) st.
Proof.
  unfold send. cbn [send_try negb]. rewrite !hbind_unfold.
  rewrite (read_loop_one_chunk (chunks ++ _)), (read_loop_one_chunk chunks)
    by done.
  rewrite chunks_text_app.
  change (chunks_text [String newline ""]) with (String newline "").
  cbn [read_loop]. change ("" +:+ ?x) with x.
  rewrite split_app_sep. change (split newline "") with [""].
  rewrite removelast_last, last_last.
  set (text := chunks_text chunks).
  rewrite (app_removelast_last "" (split_not_nil newline text)) at 1.
  rewrite !hbind_unfold, for_lines_app, hbind_unfold.
  destruct (for_lines (removelast (split newline text)) _ _) as [[t1| |] st1];
    [| done | done].
  cbn [for_lines]. rewrite !hbind_unfold. unfold hret. cbn [fst snd].
  destruct (truthy (JStr (trim (List.last (split newline text) "")))) eqn:Hfrag.
  - rewrite !hbind_unfold.
    destruct (on_line _ t1 st1) as [[t2| |] st2]; reflexivity.
  - assert (trim (List.last (split newline text) "") = "") as Hblank.
    { cbn [truthy] in Hfrag. apply negb_false_iff, String.eqb_eq in Hfrag.
      exact Hfrag. }
    rewrite !hbind_unfold, (on_line_blank _ t1 st1 Hblank). reflexivity.
Qed.

(** X15.  In hooks.ts a parsed line with op set, add, replace or remove
    and no path makes [applyPatch] throw a TypeError: the line loop stops
    there, applies none of the lines that follow and commits nothing.  The
    [applyPatch] of utils.ts returns the tree for the same patch. *)
Theorem pathless_patch_halts_stream (line : string) (v : JValue) (o : string) :
  parsePatchLine line = v →
  truthy v = true →
  prop v "op" = JStr o →
  mutating_op o ∨ o = "remove" →
  prop v "path" = JUndefined →
  (∀ rest t st,
     for_lines (line :: rest) t st
     = (Throw (TypeError "Cannot read properties of undefined (reading 'startsWith')"),
        st))
  ∧ ∀ t, Utils.applyPatch t (patch_of_value v) = Normal t.
Proof.
  intros Hparse Htruthy Hop Ho Hpath. split.
  - intros rest t st. cbn [for_lines]. rewrite hbind_unfold.
    unfold on_line. rewrite Hparse, Htruthy, hbind_unfold.
    unfold hlift, applyPatch, applyPatch_switch, patch_of_value.
    cbn [op path Tree.value]. rewrite Hop, Hpath.
    destruct Ho as [Ho | ->].
    + by rewrite (mutating_op_test o Ho).
    + reflexivity.
  - intros t. unfold Utils.applyPatch, patch_of_value. cbn [path].
    by rewrite Hpath.
Qed.

End StreamFacts.

(** ** The stream of utils.ts *)

Section UtilsStreamFacts.
Context `{JsonParser}.
Import UtilsStream.

Lemma sbind_unfold {A B} (c : Stream A) (k : A → Stream B) (st : StreamState) :
  (c ≫= k) st
  = match c st with
    | (Normal a, st') => k a st'
    | (Throw e, st') => (Throw e, st')
    | (Unmodelled, st') => (Unmodelled, st')
    end.
Proof. reflexivity. Qed.

Lemma utils_for_lines_app (sink : bool) (l1 l2 : list string) (t : UITree)
    (st : StreamState) :
  for_lines sink (l1 ++ l2) t st
  = (for_lines sink l1 t ≫= for_lines sink l2) st.
Proof.
  revert t st. induction l1 as [|line l1 IH]; intros t st; [done |].
  cbn [app for_lines]. rewrite !sbind_unfold.
  destruct (on_line sink line t st) as [[t'| |] st']; [| done | done].
  rewrite IH. by rewrite sbind_unfold.
Qed.

Lemma utils_read_loop_one_chunk (sink : bool) (chunks : list string)
    (fin : Hooks.ReadEnd) :
  ∀ (buffer : string) (t : UITree) (st : StreamState),
    split newline buffer = [buffer] →
    read_loop sink chunks fin buffer t st
    = read_loop sink [Hooks.chunks_text chunks] fin buffer t st.
Proof.
  induction chunks as [|c cs IH]; intros buffer t st Hbuf.
  - cbn [Hooks.chunks_text foldr read_loop]. rewrite append_nil_r, Hbuf.
    reflexivity.
  - cbn [Hooks.chunks_text foldr read_loop]. fold (Hooks.chunks_text cs).
    rewrite <- append_assoc, (split_app newline (buffer +:+ c)).
    pose proof (split_not_nil newline
                  (List.last (split newline (buffer +:+ c)) ""
                   +:+ Hooks.chunks_text cs)) as Hne.
    rewrite removelast_app, last_app_r by done.
    rewrite !sbind_unfold, utils_for_lines_app, sbind_unfold.
    destruct (for_lines sink (removelast (split newline (buffer +:+ c))) t st)
      as [[t'| |] st']; [| done | done].
    rewrite IH by apply split_last_whole.
    cbn [read_loop]. by rewrite sbind_unfold.
Qed.

(** X16.  The stream built on [processPatch] does not depend on the chunk
    boundaries either: every chunk sequence ends in the same state, data
    patches handed to [onDataPatch] included, as its whole text arriving
    as one chunk. *)
Theorem utils_send_chunking_invariant (sink : bool) (status : N)
    (json : option JValue) (chunks : list string) (fin : Hooks.ReadEnd)
    (st : StreamState) :
  send sink (Hooks.Response true status json (Some (chunks, fin))) st
  = send sink
      (Hooks.Response true status json
         (Some ([Hooks.chunks_text chunks], fin))) st.
Proof.
  unfold send. cbn [send_try negb]. rewrite !sbind_unfold.
  by rewrite utils_read_loop_one_chunk.
Qed.

(** X17.  A parsed line with a truthy [dataPath] is routed, when
    [onDataPatch] is supplied, to that callback and nowhere else: the
    tree variable, the tree value and the rest of the hook state stay as
    they are, also when the line carries a path.  When the callback is
    not supplied and the line has no path, the line is passed over without
    an exception. *)
Theorem data_patch_routing (line : string) (v : JValue) (t : UITree)
    (st : StreamState) :
  Utils.parsePatchLine line = v →
  truthy v = true →
  truthy (prop v "dataPath") = true →
  on_line true line t st
  = (Normal t, mkStream (hook st) (onDataPatchCalls st ++ [patch_of_value v]))
  ∧ (truthy (prop v "path") = false →
     on_line false line t st = (Normal t, st)).
Proof.
  intros Hparse Htruthy Hdata. split.
  - unfold on_line. rewrite Hparse, Htruthy.
    unfold Utils.processPatch, returns_argument, patch_of_value.
    cbn [dataPath path]. rewrite Hdata. cbn [andb orb negb fst snd].
    reflexivity.
  - intros Hpath. unfold on_line. rewrite Hparse, Htruthy.
    unfold Utils.processPatch, returns_argument, Utils.applyPatch, patch_of_value.
    cbn [dataPath path]. rewrite Hdata, Hpath. cbn [andb orb negb fst snd].
    rewrite !sbind_unfold. unfold sdo, slift, sret.
    destruct st as [h calls]. cbn. by rewrite app_nil_r.
Qed.

End UtilsStreamFacts.

(** ** [flatToTree] *)

Section FlatFacts.
Import Flat.

Lemma push_children_entry (ks : list string) :
  ∀ (k t : string) (p v : JValue) (l : list string),
    push_children ks (mkElement k t p (Some l) v)
    = mkElement k t p (Some (l ++ ks)) v.
Proof.
  induction ks as [|c ks IH]; intros k t p v l.
  - cbn. by rewrite app_nil_r.
  - change (push_children (c :: ks) (mkElement k t p (Some l) v))
      with (push_children ks (mkElement k t p (Some (l ++ [c])) v)).
    by rewrite IH, <- app_assoc.
Qed.

Lemma first_pass_fold (els : list FlatElement) (k : string) :
  ∀ m0 : gmap string UIElement,
    foldl (fun m e => <[f_key e := entry_of e]> m) m0 els !! k
    = match last (filter (fun e => f_key e = k) els) with
      | Some e => Some (entry_of e)
      | None => m0 !! k
      end.
Proof.
  induction els as [|e els IH]; intros m0; [done |].
  cbn [foldl]. rewrite IH, filter_cons.
  destruct (decide (f_key e = k)) as [<- | Hne].
  - rewrite last_cons. destruct (last (filter _ els)); [done |].
    by rewrite lookup_insert_eq.
  - destruct (last (filter _ els)); [done |]. by rewrite lookup_insert_ne.
Qed.

Lemma link_fold_elements (els : list FlatElement) (k : string) :
  ∀ (r0 : string) (m0 : gmap string UIElement),
    (foldl link (r0, m0) els).2 !! k
    = push_children (f_key <$> filter (fun e => parent_of e = Some k) els)
        <$> m0 !! k.
Proof.
  induction els as [|e els IH]; intros r0 m0.
  - cbn. by destruct (m0 !! k).
  - cbn [foldl]. rewrite filter_cons. unfold link at 2. cbn [fst snd].
    destruct (parent_of e) as [p|] eqn:Hparent.
    + destruct (m0 !! p) as [parent|] eqn:Hp.
      * rewrite IH. destruct (decide (Some p = Some k)) as [[= ->] | Hne].
        -- rewrite lookup_insert_eq, Hp. reflexivity.
        -- rewrite lookup_insert_ne by congruence. reflexivity.
      * rewrite IH. destruct (decide (Some p = Some k)) as [[= ->] | Hne].
        -- by rewrite Hp.
        -- reflexivity.
    + rewrite IH. by destruct (decide (None = Some k)).
Qed.

Lemma link_fold_root (els : list FlatElement) :
  ∀ (r0 : string) (m0 : gmap string UIElement),
    (foldl link (r0, m0) els).1
    = match last (filter (fun e => parent_of e = None) els) with
      | Some e => f_key e
      | None => r0
      end.
Proof.
  induction els as [|e els IH]; intros r0 m0; [done |].
  cbn [foldl]. rewrite filter_cons. unfold link at 2. cbn [fst snd].
  destruct (parent_of e) as [p|] eqn:Hparent.
  - destruct (m0 !! p); rewrite IH; by destruct (decide (Some p = None)).
  - rewrite IH. destruct (decide (None = None)) as [_ | ?]; [| done].
    rewrite last_cons. by destruct (last (filter _ els)).
Qed.

(** X18.  For a list in which no key and no parent key names a member
    of [Object.prototype], the tree made by [flatToTree] has an entry
    exactly for the keys that occur in the list.  The entry of a key takes
    type, props and visible from the last list element with that key, and
    its children are the keys of all list elements that name this key as
    their parent, in list order. *)
Theorem flatToTree_elements (els : list FlatElement) (k : string) :
  forallb plain_names els = true →
  elements (flatToTree els) !! k
  = match last (filter (fun e => f_key e = k) els) with
    | Some e =>
        Some (mkElement (f_key e) (f_type e) (f_props e)
                (Some (f_key <$> filter (fun c => parent_of c = Some k) els))
                (f_visible e))
    | None => None
    end.
Proof.
  intros _. unfold flatToTree. cbn [elements]. rewrite link_fold_elements.
  unfold first_pass. rewrite (first_pass_fold els k ∅).
  destruct (last (filter _ els)) as [e|]; [| done].
  cbn [fmap option_fmap option_map]. unfold entry_of.
  by rewrite push_children_entry.
Qed.

(** X19.  The root of the tree made by [flatToTree] is the key of the last
    list element without a parent (its [parentKey] absent, null or the
    empty string), and the empty string when every element has one. *)
Theorem flatToTree_root (els : list FlatElement) :
  root (flatToTree els)
  = match last (filter (fun e => parent_of e = None) els) with
    | Some e => f_key e
    | None => ""
    end.
Proof. unfold flatToTree. cbn [root]. apply link_fold_root. Qed.

End FlatFacts.

(** ** The Adaptive Cards adapter *)

Section AdapterFacts.
Import Flat AdaptiveCards.

Lemma mapM_option_mono {A B} (f g : A → option B) (l : list A) :
  (∀ x y, x ∈ l → f x = Some y → g x = Some y) →
  ∀ ys, mapM f l = Some ys → mapM g l = Some ys.
Proof.
  induction l as [|x l IH]; intros Hfg ys; [done |].
  cbn [mapM]. destruct (f x) as [y|] eqn:Hfx; [| done].
  rewrite (Hfg x y) by (done || by left). cbn.
  destruct (mapM f l) as [ys'|] eqn:Hl; [| done].
  rewrite (IH (fun x' y' Hin => Hfg x' y' (list_elem_of_further _ _ _ Hin)) ys' eq_refl).
  done.
Qed.

Lemma mapM_option_total {A B} (f : A → option B) (l : list A) :
  (∀ x, x ∈ l → is_Some (f x)) → is_Some (mapM f l).
Proof.
  induction l as [|x l IH]; intros Hf; [by eexists |].
  cbn [mapM]. destruct (Hf x ltac:(by left)) as [y ->]. cbn.
  destruct IH as [ys ->]; [| by eexists].
  intros x' Hin. apply Hf. by right.
Qed.

Lemma mapM_option_none {A B} (f : A → option B) (l : list A) (x : A) :
  x ∈ l → f x = None → mapM f l = None.
Proof.
  intros Hin Hfx. induction l as [|a l IH]; [by apply elem_of_nil in Hin |].
  cbn [mapM]. apply elem_of_cons in Hin as [-> | Hin].
  - by rewrite Hfx.
  - rewrite IH by done. by destruct (f a).
Qed.

Lemma renderElement_S (tree : TypedTree) (registry : gmap string Component)
    (fuel : nat) (k : string) :
  renderElement (S fuel) tree registry k
  = match elements tree !! k with
    | None => Some []
    | Some element =>
        match registry !! type element with
        | None => Some [unknown_component (type element)]
        | Some component =>
            rendered ← mapM (renderElement fuel tree registry)
                          (default [] (children element));
            Some (match component element (concat rendered) with
                  | One card => [card]
                  | Many cards => cards
                  end)
        end
    end.
Proof. reflexivity. Qed.

Lemma renderElement_more_fuel (tree : TypedTree) (registry : gmap string Component)
    (fuel : nat) :
  ∀ k cards,
    renderElement fuel tree registry k = Some cards →
    renderElement (S fuel) tree registry k = Some cards.
Proof.
  induction fuel as [|fuel IH]; intros k cards; [done |].
  rewrite (renderElement_S tree registry (S fuel)), (renderElement_S tree registry fuel).
  destruct (elements tree !! k) as [element|]; [| done].
  destruct (registry !! type element) as [component|]; [| done].
  destruct (mapM (renderElement fuel tree registry) _) as [rendered|] eqn:Hchildren;
    [| done].
  rewrite (mapM_option_mono _ (renderElement (S fuel) tree registry) _
             (fun x y _ => IH x y) rendered Hchildren).
  done.
Qed.

(** X20.  [renderElement] returns on every tree whose child references
    descend: given a rank on keys that is smaller for every listed child
    than for the element listing it (children missing from the tree
    included), the rendering of a key completes within a depth of its rank
    plus one, and a larger bound gives the same cards. *)
Theorem renderElement_terminates (tree : TypedTree)
    (registry : gmap string Component) (rank : string → nat) :
  (∀ k element c,
     elements tree !! k = Some element →
     c ∈ default [] (children element) →
     rank c < rank k) →
  ∀ k, ∃ cards,
    ∀ fuel, rank k < fuel →
            renderElement fuel tree registry k = Some cards.
Proof.
  intros Hrank.
  assert (∀ fuel k, rank k < fuel →
                    is_Some (renderElement fuel tree registry k)) as Htotal.
  { induction fuel as [|fuel IH]; intros k Hk; [lia |].
    rewrite renderElement_S.
    destruct (elements tree !! k) as [element|] eqn:Helement; [| by eexists].
    destruct (registry !! type element) as [component|]; [| by eexists].
    destruct (mapM_option_total (renderElement fuel tree registry)
                (default [] (children element))) as [rendered ->].
    - intros c Hc. apply IH. specialize (Hrank k element c Helement Hc). lia.
    - by eexists. }
  intros k. destruct (Htotal (S (rank k)) k ltac:(lia)) as [cards Hcards].
  exists cards. intros fuel Hfuel.
  induction fuel as [|fuel IH]; [lia |].
  destruct (decide (fuel = rank k)) as [-> | Hne]; [done |].
  apply renderElement_more_fuel, IH. lia.
Qed.

(** X21.  [renderElement] has no guard against cycles: in a set of keys
    whose elements all have a registered component and all list a child
    from the same set, the rendering of no key of the set completes,
    whatever the depth bound.  An element that lists itself is such a
    set. *)
Theorem renderElement_cycle_diverges (tree : TypedTree)
    (registry : gmap string Component) (looping : string → Prop) :
  (∀ k, looping k →
        ∃ element component c,
          elements tree !! k = Some element
          ∧ registry !! type element = Some component
          ∧ c ∈ default [] (children element)
          ∧ looping c) →
  ∀ fuel k, looping k → renderElement fuel tree registry k = None.
Proof.
  intros Hloop. induction fuel as [|fuel IH]; intros k Hk; [done |].
  destruct (Hloop k Hk) as (element & component & c & Helement & Hcomp & Hc & Hlc).
  rewrite renderElement_S, Helement. unfold Component in *.
  cbn beta iota. rewrite Hcomp.
  by rewrite (mapM_option_none _ _ c Hc (IH c Hlc)).
Qed.

End AdapterFacts.

(** ** The validation context, further *)

Section ValidationFacts.
Context `{Validation.ValidationDeps}.
Import Validation FieldHook.

Lemma validateAll_configs (dataModel : JValue)
    (entries : list (string * ValidationConfig)) :
  ∀ (b : bool) (st : ProviderState),
    fieldConfigs (foldl (validateAll_step dataModel) (b, st) entries).2
    = fieldConfigs st.
Proof.
  induction entries as [|[p c] entries IH]; intros b st; [done |].
  cbn [foldl]. unfold validateAll_step at 2. rewrite validate_result.
  cbn [fst snd]. by rewrite IH.
Qed.

Lemma validateAll_lookup (dataModel : JValue) (st : ProviderState) (path : string) :
  fieldStates (validateAll dataModel st).2 !! path
  = match fieldConfigs st !! path with
    | Some config => Some (validated_state dataModel st path config)
    | None => fieldStates st !! path
    end.
Proof.
  unfold validateAll, validateAll_over.
  destruct (fieldConfigs st !! path) as [config|] eqn:Hconfig.
  - apply validateAll_over_field; [apply NoDup_fst_map_to_list |].
    by apply elem_of_map_to_list.
  - apply validateAll_over_other.
    intros Hin. apply list_elem_of_fmap in Hin as ([p c] & -> & Hin).
    apply elem_of_map_to_list in Hin. cbn in Hconfig. congruence.
Qed.

Lemma call_well_formed (st : ProviderState) (c : Call) :
  well_formed st → well_formed (call st c).
Proof.
  intros Hwf path f. destruct c as [p config | dm p config | p | p | dm];
    cbn [call].
  - apply Hwf.
  - rewrite validate_result. cbn [snd fieldStates].
    destruct (decide (p = path)) as [-> | Hne].
    + rewrite lookup_insert_eq. intros [= <-]. unfold validated_state.
      cbn [touched validated result]. split; [| split; eauto].
      destruct (fieldStates st !! path) as [f0|] eqn:Hf0; [| done].
      by apply (Hwf path f0).
    + rewrite lookup_insert_ne by done. apply Hwf.
  - unfold touch. cbn [fieldStates].
    destruct (decide (p = path)) as [-> | Hne].
    + rewrite lookup_insert_eq. intros [= <-]. cbn [touched validated result].
      split; [done |].
      destruct (fieldStates st !! path) as [f0|] eqn:Hf0.
      * by apply (Hwf path f0).
      * split; [done | by intros [? ?]].
    + rewrite lookup_insert_ne by done. apply Hwf.
  - unfold clear. cbn [fieldStates].
    destruct (decide (p = path)) as [-> | Hne].
    + by rewrite lookup_delete_eq.
    + rewrite lookup_delete_ne by done. apply Hwf.
  - rewrite validateAll_lookup.
    destruct (fieldConfigs st !! path) as [config|]; [| apply Hwf].
    intros [= <-]. unfold validated_state. cbn [touched validated result].
    split; [| split; eauto].
    destruct (fieldStates st !! path) as [f0|] eqn:Hf0; [| done].
    by apply (Hwf path f0).
Qed.

(** X22.  After any sequence of [registerField], [validate], [touch],
    [clear] and [validateAll] calls on a fresh provider, every field state
    it holds is touched, and is marked validated exactly when it carries a
    result: [validate] marks a field it has no state for as touched. *)
Theorem provider_states_well_formed (calls : list Call) (path : string)
    (f : FieldValidationState) :
  fieldStates (after calls) !! path = Some f →
  touched f = true ∧ (validated f = true ↔ is_Some (result f)).
Proof.
  revert path f. change (well_formed (after calls)). unfold after.
  induction calls as [|c calls IH] using rev_ind.
  - intros path f. cbn [foldl fieldStates]. by rewrite lookup_empty.
  - rewrite foldl_app. cbn [foldl]. by apply call_well_formed.
Qed.

Lemma validateAll_fieldConfigs (dataModel : JValue) (st : ProviderState) :
  fieldConfigs (validateAll dataModel st).2 = fieldConfigs st.
Proof. apply validateAll_configs. Qed.

Lemma validateAll_flag (dataModel : JValue) (st : ProviderState) :
  (validateAll dataModel st).1
  = forallb (fun e => valid (field_result dataModel e.1 e.2))
      (map_to_list (fieldConfigs st)).
Proof. unfold validateAll, validateAll_over. by rewrite validateAll_over_flag. Qed.

Lemma provider_eq (a b : ProviderState) :
  fieldStates a = fieldStates b → fieldConfigs a = fieldConfigs b → a = b.
Proof. destruct a, b. cbn. by intros -> ->. Qed.

(** X23.  [validateAll] is idempotent while the data model stays the
    same: a second run returns the same answer and leaves every field
    state and configuration as the first run left them. *)
Theorem validateAll_idempotent (dataModel : JValue) (st : ProviderState) :
  validateAll dataModel (validateAll dataModel st).2
  = validateAll dataModel st.
Proof.
  apply injective_projections.
  - by rewrite !validateAll_flag, validateAll_fieldConfigs.
  - apply provider_eq; [| by rewrite !validateAll_fieldConfigs].
    apply map_eq. intros path.
    rewrite (validateAll_lookup dataModel (validateAll dataModel st).2).
    rewrite validateAll_fieldConfigs, validateAll_lookup.
    destruct (fieldConfigs st !! path) as [config|] eqn:Hconfig; [| done].
    unfold validated_state. by rewrite validateAll_lookup, Hconfig.
Qed.

(** X24.  What the field hook reports: a field without state, and so a
    field just cleared, reports valid with no errors, whatever its
    configuration; after [validate] it reports the validity and the
    errors of that run; [touch] changes neither report of any field. *)
Theorem field_hook_reports (dataModel : JValue) (st : ProviderState)
    (path other : string) (config : ValidationConfig) :
  isValid path (clear path st) = true
  ∧ field_errors path (clear path st) = []
  ∧ isValid path (validate dataModel path config st).2
    = valid (field_result dataModel path config)
  ∧ field_errors path (validate dataModel path config st).2
    = errors (field_result dataModel path config)
  ∧ isValid other (touch path st) = isValid other st
  ∧ field_errors other (touch path st) = field_errors other st.
Proof.
  unfold isValid, field_errors, state.
  repeat split.
  - unfold clear. cbn [fieldStates]. by rewrite lookup_delete_eq.
  - unfold clear. cbn [fieldStates]. by rewrite lookup_delete_eq.
  - rewrite validate_result. cbn [snd fieldStates]. by rewrite lookup_insert_eq.
  - rewrite validate_result. cbn [snd fieldStates]. by rewrite lookup_insert_eq.
  - unfold touch. cbn [fieldStates].
    destruct (decide (path = other)) as [-> | Hne].
    + rewrite lookup_insert_eq. cbn. by destruct (fieldStates st !! other).
    + by rewrite lookup_insert_ne.
  - unfold touch. cbn [fieldStates].
    destruct (decide (path = other)) as [-> | Hne].
    + rewrite lookup_insert_eq. cbn. by destruct (fieldStates st !! other).
    + by rewrite lookup_insert_ne.
Qed.

(** X25.  The answer of [validateAll] is the one the field hooks show
    afterwards: it returns true exactly when [isValid()] holds of every
    registered field in the state it leaves. *)
Theorem validateAll_agrees_with_isValid (dataModel : JValue) (st : ProviderState) :
  (validateAll dataModel st).1 = true
  ↔ ∀ path, is_Some (fieldConfigs st !! path) →
            isValid path (validateAll dataModel st).2 = true.
Proof.
  assert (∀ path config,
            fieldConfigs st !! path = Some config →
            isValid path (validateAll dataModel st).2
            = valid (field_result dataModel path config)) as Hshown.
  { intros path config Hconfig. unfold isValid, state.
    by rewrite validateAll_lookup, Hconfig. }
  rewrite validateAll_flag, forallb_forall. split.
  - intros Hall path [config Hconfig]. rewrite (Hshown path config Hconfig).
    apply (Hall (path, config)). apply list_elem_of_In.
    by apply elem_of_map_to_list.
  - intros Hall [path config] Hin. apply list_elem_of_In in Hin.
    apply elem_of_map_to_list in Hin. cbn [fst snd].
    rewrite <- (Hshown path config Hin). apply Hall. by eexists.
Qed.

End ValidationFacts.

(** ** The data and action contexts, further *)

Section ContextFacts.

Lemma setByPath_obj_shape (m : gmap string JValue) (path : string)
    (value obj' : JValue) :
  Core.setByPath (JObj m) path value = Normal obj' →
  ∃ m', obj' = JObj m'.
Proof.
  unfold Core.setByPath.
  destruct (Core.path_segments path) as [|segment rest].
  - intros [= <-]. by eexists.
  - cbn [length Nat.eqb]. destruct rest as [|segment' rest'].
    + intros Hset. apply js_set_obj in Hset as ->. by eexists.
    + rewrite setByPath_walk_obj.
      destruct (reaches_proto m segment); [done |].
      destruct (Core.setByPath_walk (segment' :: rest') _ value) as [next| |];
        try done.
      intros [= <-]. by eexists.
Qed.

(** X26.  [update(updates)] writes what one [set] call per entry, in the
    order of the entries, writes: on an object data model, whenever the
    [set] calls stay within the modelled fragment (no write replaces or
    enters a prototype), both end with the same data model, or fail with
    the same error at the same entry.  (After a failure [update] has
    stored nothing, the [set] calls the entries before the failing
    one.) *)
Theorem update_as_successive_sets (updates : list (string * JValue))
    (m : gmap string JValue) :
  DataMore.set_each updates (JObj m) ≠ Unmodelled →
  DataMore.update updates (JObj m) = DataMore.set_each updates (JObj m).
Proof.
  intros _. unfold DataMore.update. cbn [spread]. revert m.
  induction updates as [|[path value] updates IH]; intros m; [done |].
  cbn [DataMore.update_loop DataMore.set_each]. unfold Data.set. cbn [spread].
  destruct (Core.setByPath (JObj m) path value) as [next|e|] eqn:Hset; [| done..].
  destruct (setByPath_obj_shape _ _ _ _ Hset) as [m' ->].
  cbn. apply IH.
Qed.

(** X27.  After [cancel] nothing is left to confirm: a following
    [confirm] changes nothing and calls no handler, [cancel] itself calls
    no handler and leaves the data model, and a second [cancel] changes
    nothing more. *)
Theorem cancel_then_confirm (st : Actions.ActionState) :
  Actions.confirm (Actions.cancel st) = Normal (Actions.cancel st)
  ∧ Actions.cancel (Actions.cancel st) = Actions.cancel st
  ∧ Actions.handlerCalls (Actions.cancel st) = Actions.handlerCalls st
  ∧ Actions.data (Actions.cancel st) = Actions.data st.
Proof.
  unfold Actions.cancel, Actions.confirm.
  destruct (Actions.pendingConfirmation st) as [pc|] eqn:Hpending; cbn;
    by rewrite ?Hpending.
Qed.

End ContextFacts.

(** ** The further properties at concrete inputs *)

Module ScenarioMoreParser.
Import Scenario ScenarioMore.

Lemma table_more_comment (s : string) :
  startsWith s "//" = true → lookup_text table_more s = None.
Proof.
  intros Hs. unfold table_more, table. cbn [lookup_text app].
  repeat match goal with
         | |- context [String.eqb ?k s] =>
             destruct (String.eqb_spec k s) as [<- | _];
             [vm_compute in Hs; discriminate |]
         end.
  reflexivity.
Qed.

#[local] Instance parser_more : JsonParser := {|
  JSON_parse := lookup_text table_more;
  JSON_parse_empty := eq_refl;
  JSON_parse_comment := table_more_comment
|}.

End ScenarioMoreParser.

Section FurtherWitnesses.
Import Scenario ScenarioMore.

Lemma not_elem_of_decide (x : string) (l : list string) :
  bool_decide (x ∉ l) = true → x ∉ l.
Proof. apply bool_decide_eq_true_1. Qed.

Lemma path_leading_slash_optional_witness :
  Core.getByPath_string refund_data ("/" +:+ "refund")
  = Core.getByPath_string refund_data "refund"
  ∧ Core.setByPath refund_data ("/" +:+ "refund") (JNum 1)
    = Core.setByPath refund_data "refund" (JNum 1).
Proof.
  apply (path_leading_slash_optional refund_data (JNum 1) "refund");
    [discriminate | reflexivity].
Defined.

Lemma getByPath_compose_witness :
  Core.getByPath_string refund_data ("/refund" +:+ "/" +:+ "amount")
  = Core.getByPath_string (Core.getByPath_string refund_data "/refund") "amount".
Proof.
  apply (getByPath_compose refund_data "/refund" "amount");
    [discriminate | discriminate | discriminate | reflexivity].
Defined.

Lemma setByPath_getByPath_witness :
  ∃ obj',
    Core.setByPath refund_data "/refund/amount" (JNum 75) = Normal obj'
    ∧ Core.getByPath_string obj' "/refund/amount" = JNum 75.
Proof.
  apply (setByPath_getByPath refund_data (JNum 75) "/refund/amount");
    [discriminate | discriminate
    | apply not_elem_of_decide; vm_compute; reflexivity
    | vm_compute; exact I].
Defined.

Lemma setByPath_top_level_frame_witness :
  ∃ m',
    JObj (<["user" := JObj (<["name" := JStr "Alice"]> {[ "name" := JStr "Ada" ]})]>
            user_map)
    = JObj m'
    ∧ (∀ k, k ≠ hd "" (Core.path_segments "/user/name") →
            m' !! k = user_map !! k)
    ∧ (reaches_proto user_map (hd "" (Core.path_segments "/user/name")) = false →
       is_Some (m' !! hd "" (Core.path_segments "/user/name"))).
Proof.
  apply (setByPath_top_level_frame user_map "/user/name" (JStr "Alice")).
  vm_compute. reflexivity.
Defined.

Lemma resolveDynamicValue_literal_witness :
  Core.resolveDynamicValue (js_object [("label", JStr "Total")]) refund_data
  = Normal (js_object [("label", JStr "Total")]).
Proof.
  apply (resolveDynamicValue_literal (js_object [("label", JStr "Total")])
           refund_data);
    [discriminate | discriminate | vm_compute; discriminate].
Defined.

Lemma applyPatch_remove_below_key_witness :
  Utils.applyPatch tree_ab
    (mkPatch (JStr "remove")
       (JStr (elements_prefix +:+ "a" +:+ String "/" "props/title"))
       JUndefined JUndefined)
  = Normal (mkTree (root tree_ab) (delete "a" (elements tree_ab)))
  ∧ Utils.applyPatch tree_ab
      (mkPatch (JStr "remove") (JStr (elements_prefix +:+ "a")) JUndefined JUndefined)
    = Normal (mkTree (root tree_ab) (delete "a" (elements tree_ab))).
Proof.
  apply (applyPatch_remove_below_key tree_ab "a" "props/title" JUndefined JUndefined);
    [discriminate | reflexivity].
Defined.

Lemma applyPatch_add_then_remove_witness :
  (Utils.applyPatch emptyTree
     (mkPatch (JStr "add") (JStr (elements_prefix +:+ "a")) JUndefined element_a)
   ≫= fun t =>
     Utils.applyPatch t
       (mkPatch (JStr "remove") (JStr (elements_prefix +:+ "a")) JUndefined JUndefined))
  = Normal emptyTree
  ∧ Utils.applyPatch emptyTree
      (mkPatch (JStr "remove") (JStr (elements_prefix +:+ "a")) JUndefined JUndefined)
    = Normal emptyTree.
Proof.
  apply (applyPatch_add_then_remove emptyTree "add" "a"
           JUndefined JUndefined element_a JUndefined);
    [right; left; reflexivity | discriminate | reflexivity | reflexivity].
Defined.

Lemma applyPatch_frame_witness :
  ("/elements/a" ≠ "/root" →
   root (mkTree (JStr "a") (delete "a" (elements tree_ab))) = root tree_ab)
  ∧ ∀ k, k ≠ hd "" (pathParts_of "/elements/a") →
         elements (mkTree (JStr "a") (delete "a" (elements tree_ab))) !! k
         = elements tree_ab !! k.
Proof.
  destruct (applyPatch_frame tree_ab
              (mkTree (JStr "a") (delete "a" (elements tree_ab)))
              (JStr "remove") "/elements/a" JUndefined JUndefined)
    as (_ & Hother & Hroot & _).
  - vm_compute. reflexivity.
  - intros _. vm_compute. discriminate.
  - split; [exact Hroot | exact Hother].
Defined.

Lemma applyPatch_field_patch_reads_back_witness :
  ∃ element',
    Utils.applyPatch tree_ab
      (mkPatch (JStr "replace")
         (JStr (elements_prefix +:+ "a" +:+ String "/" "props/title"))
         JUndefined (JStr "T"))
    = Normal (mkTree (root tree_ab) (<["a" := element']> (elements tree_ab)))
    ∧ Core.getByPath_string element' ("/" +:+ "props/title") = JStr "T".
Proof.
  apply (applyPatch_field_patch_reads_back tree_ab "replace" "a" "props/title"
           JUndefined (JStr "T") (spread element_a));
    [right; right; reflexivity | discriminate | reflexivity | discriminate
    | apply not_elem_of_decide; vm_compute; reflexivity
    | vm_compute; reflexivity | vm_compute; exact I].
Defined.

Lemma applyPatch_idempotent_witness :
  Utils.applyPatch (mkTree (JStr "a") (delete "a" (elements tree_ab)))
    (mkPatch (JStr "remove") (JStr "/elements/a") JUndefined JUndefined)
  = Normal (mkTree (JStr "a") (delete "a" (elements tree_ab))).
Proof.
  apply (applyPatch_idempotent tree_ab
           (mkTree (JStr "a") (delete "a" (elements tree_ab)))
           (JStr "remove") "/elements/a" JUndefined JUndefined);
    [left; reflexivity | vm_compute; reflexivity].
Defined.

Lemma applyPatch_root_commutes_witness :
  (Utils.applyPatch emptyTree (mkPatch (JStr "set") (JStr "/root") JUndefined (JStr "a"))
   ≫= fun t =>
     Utils.applyPatch t
       (mkPatch (JStr "add") (JStr "/elements/a") JUndefined element_a))
  = (Utils.applyPatch emptyTree
       (mkPatch (JStr "add") (JStr "/elements/a") JUndefined element_a)
     ≫= fun t =>
       Utils.applyPatch t
         (mkPatch (JStr "set") (JStr "/root") JUndefined (JStr "a"))).
Proof.
  apply (applyPatch_root_commutes emptyTree "set" (JStr "a") JUndefined
           (JStr "add") "/elements/a" JUndefined element_a);
    [left; reflexivity | discriminate | intros _; vm_compute; discriminate].
Defined.

Lemma pathless_patch_halts_stream_witness :
  (∀ rest t st,
     Hooks.for_lines (H := ScenarioMoreParser.parser_more) (line_pathless :: rest) t st
     = (Throw (TypeError "Cannot read properties of undefined (reading 'startsWith')"),
        st))
  ∧ ∀ t, Utils.applyPatch t (patch_of_value pathless_value) = Normal t.
Proof.
  apply (pathless_patch_halts_stream (H := ScenarioMoreParser.parser_more)
           line_pathless pathless_value "set");
    [vm_compute; reflexivity | reflexivity | vm_compute; reflexivity
    | left; left; reflexivity | vm_compute; reflexivity].
Defined.

Lemma data_patch_routing_witness :
  UtilsStream.on_line (H := ScenarioMoreParser.parser_more) true line_data
    emptyTree idle_stream
  = (Normal emptyTree,
     UtilsStream.mkStream (UtilsStream.hook idle_stream)
       (UtilsStream.onDataPatchCalls idle_stream ++ [patch_of_value data_value]))
  ∧ (truthy (prop data_value "path") = false →
     UtilsStream.on_line (H := ScenarioMoreParser.parser_more) false line_data
       emptyTree idle_stream
     = (Normal emptyTree, idle_stream)).
Proof.
  apply (data_patch_routing (H := ScenarioMoreParser.parser_more)
           line_data data_value emptyTree idle_stream);
    [vm_compute; reflexivity | reflexivity | vm_compute; reflexivity].
Defined.

Lemma renderElement_terminates_witness :
  ∃ cards,
    ∀ fuel, card_rank "root" < fuel →
            AdaptiveCards.renderElement fuel card_tree card_registry "root"
            = Some cards.
Proof.
  apply (renderElement_terminates card_tree card_registry card_rank).
  intros k element c Hk Hc. unfold card_tree in Hk. cbn [Flat.elements] in Hk.
  apply lookup_insert_Some in Hk as [[<- <-] | [Hne Hk]].
  - cbn in Hc. apply list_elem_of_singleton in Hc as ->. vm_compute. lia.
  - apply lookup_singleton_Some in Hk as [<- <-]. cbn in Hc.
    by apply elem_of_nil in Hc.
Defined.

Lemma renderElement_cycle_diverges_witness :
  AdaptiveCards.renderElement 1000 loop_tree card_registry "loop" = None.
Proof.
  apply (renderElement_cycle_diverges loop_tree card_registry (fun k => k = "loop"));
    [| reflexivity].
  intros k ->. exists loop_element, card_component, "loop".
  split; [vm_compute; reflexivity |].
  split; [vm_compute; reflexivity |].
  split; [by left | reflexivity].
Defined.

Lemma provider_states_well_formed_witness :
  Validation.touched
    (Validation.mkField true true
       (Some (Validation.mkResult false ["required"; "too short"]))) = true
  ∧ (Validation.validated
       (Validation.mkField true true
          (Some (Validation.mkResult false ["required"; "too short"]))) = true
     ↔ is_Some
         (Validation.result
            (Validation.mkField true true
               (Some (Validation.mkResult false ["required"; "too short"]))))).
Proof.
  apply (provider_states_well_formed form_calls "/email").
  vm_compute. reflexivity.
Defined.

Lemma flatToTree_elements_witness :
  Flat.elements (Flat.flatToTree flat_card) !! "root"
  = match last (filter (fun e => Flat.f_key e = "root") flat_card) with
    | Some e =>
        Some (Flat.mkElement (Flat.f_key e) (Flat.f_type e) (Flat.f_props e)
                (Some (Flat.f_key
                         <$> filter (fun c => Flat.parent_of c = Some "root")
                               flat_card))
                (Flat.f_visible e))
    | None => None
    end.
Proof.
  apply (flatToTree_elements flat_card "root"). vm_compute. reflexivity.
Defined.

Lemma update_as_successive_sets_witness :
  DataMore.update user_updates (JObj user_map)
  = DataMore.set_each user_updates (JObj user_map).
Proof.
  apply (update_as_successive_sets user_updates user_map).
  vm_compute. discriminate.
Defined.

End FurtherWitnesses.
